(** * Autosave and snapshot ring of the smriti prompt editor

    A shallow embedding of [apps/smriti/src/lib/autosave.ts] (the
    [useAutosave] hook) over the two Dexie tables declared in
    [apps/smriti/src/lib/db.ts], followed by the properties of flush,
    debounce, ring eviction and restore.

    Conventions of the embedding.
    - A JavaScript number is modelled by the integer it denotes ([Z]).  The
      numbers of this code are clocks in milliseconds, store keys and
      version counters that grow by one per write; all of them stay in the
      range where double arithmetic on integers is exact.
    - [Date.now()], the outcome of a storage call and the passing of time
      are inputs of the functions: the clock value is an argument, a
      storage failure is a fault plan, timers run on a virtual clock.
    - Dexie is an external library; its tables are modelled by their
      documented behaviour (see [Dexie] below). *)

From Stdlib Require Import ZArith Lia Sorted Permutation.
From stdpp Require Import base option list sorting gmap strings.

Local Open Scope Z_scope.

(** ** JavaScript values *)

(** A value of type [A | null | undefined]. *)
Inductive js (A : Type) : Type :=
  | undefined
  | null
  | val (a : A).
Arguments undefined {A}.
Arguments null {A}.
Arguments val {A} a.

Definition nullish {A} (x : js A) : bool :=
  match x with
  | val _ => false
  | _ => true
  end.

(** [x ?? y]: the right operand when the left one is null or undefined. *)
Definition coalesce {A} (x y : js A) : js A :=
  if nullish x then y else x.
Infix "??" := coalesce (at level 45, left associativity).

(** [o?.f]: undefined when there is no object. *)
Definition chain {R A} (o : option R) (f : R -> js A) : js A :=
  match o with
  | Some r => f r
  | None => undefined
  end.

(** [x ?? n] for a number that is present or undefined. *)
Definition num_or (x : js Z) (n : Z) : Z :=
  match x with
  | val v => v
  | _ => n
  end.

(** An own property of an object literal: absent, or present with a value
    (which may itself be undefined). *)
Definition prop (A : Type) : Type := option (js A).

(** Reading a property: an absent one reads as undefined. *)
Definition read {A} (p : prop A) : js A :=
  match p with
  | Some v => v
  | None => undefined
  end.

(** The contribution of a property to [Object.keys(o).length]. *)
Definition owned {A} (p : prop A) : Z :=
  match p with
  | Some _ => 1
  | None => 0
  end.

(** One key of the spread [{ ...a, ...b }]: the key of [b] wins whenever
    [b] owns it. *)
Definition spread_key {A} (a b : prop A) : prop A :=
  match b with
  | Some v => Some v
  | None => a
  end.

(** [DocJSON = unknown]: the editor hands over a JSON tree; null and
    undefined are the constructors of [js]. *)
#[local] Set Warnings "-register-all".
Inductive json : Type :=
  | JBool (b : bool)
  | JNum (n : Z)
  | JStr (s : string)
  | JArr (items : list json)
  | JObj (fields : list (string * json)).

(** ** Persisted structures ([db.ts]) *)

Record SelectionSnapshot : Type := { from : Z; to : Z }.

Module DraftRecord.
Record t : Type := {
  id : string;
  projectName : js string;
  promptName : js string;
  docJson : js json;
  selection : js SelectionSnapshot;
  updatedAt : Z;
  version : Z
}.
End DraftRecord.

Module SnapshotRecord.
(** A stored row always carries the key the table assigned to it. *)
Record t : Type := {
  id : Z;
  draftId : string;
  docJson : js json;
  selection : js SelectionSnapshot;
  createdAt : Z
}.
End SnapshotRecord.

Module DraftUpdate.
Record t : Type := {
  projectName : prop string;
  promptName : prop string;
  docJson : prop json;
  selection : prop SelectionSnapshot
}.

(** The object literal [{}]. *)
Definition empty : t :=
  {| projectName := None; promptName := None; docJson := None; selection := None |}.

(** [{ ...a, ...b }]. *)
Definition spread (a b : t) : t :=
  {| projectName := spread_key (projectName a) (projectName b);
     promptName := spread_key (promptName a) (promptName b);
     docJson := spread_key (docJson a) (docJson b);
     selection := spread_key (selection a) (selection b) |}.

(** [Object.keys(u).length]. *)
Definition keys_length (u : t) : Z :=
  owned (projectName u) + owned (promptName u)
  + owned (docJson u) + owned (selection u).

(** An object is truthy whatever it holds. *)
Definition truthy (u : t) : bool := true.
End DraftUpdate.

(** ** The store: tables [drafts] and [snapshots] of [SmritiDB] *)

(** [drafts: 'id, ...'] is keyed by the draft identity.  [snapshots:
    '++id, draftId, createdAt'] has an auto-incremented key: the rows are
    kept in key order together with the key generator of the table. *)
Record Store : Type := {
  drafts : gmap string DraftRecord.t;
  snapshots : list SnapshotRecord.t;
  snapshots_key : Z
}.

Definition empty_store : Store :=
  {| drafts := ∅; snapshots := []; snapshots_key := 1 |}.

(** A snapshot not yet added: [SnapshotRecord] without its optional id. *)
Record NewSnapshot : Type := {
  new_draftId : string;
  new_docJson : js json;
  new_selection : js SelectionSnapshot;
  new_createdAt : Z
}.

(** ** Dexie

    Storage calls are asynchronous and may be rejected.  A computation
    over the store threads the store and the number of calls issued so
    far; the fault plan names the call that the engine rejects, if any.  A
    failed computation still carries the store it had reached, so that
    what [transaction] undoes is visible. *)

Inductive StorageFailure : Type := Rejected (call : nat).

Inductive Outcome (A : Type) : Type :=
  | Ok (a : A) (s : Store) (calls : nat)
  | Fail (e : StorageFailure) (s : Store) (calls : nat).
Arguments Ok {A} a s calls.
Arguments Fail {A} e s calls.

Definition Db (A : Type) : Type := option nat -> Store -> nat -> Outcome A.

Definition ret {A} (a : A) : Db A := fun _ s n => Ok a s n.

Definition bind {A B} (m : Db A) (k : A -> Db B) : Db B :=
  fun fault s n =>
    match m fault s n with
    | Ok a s' n' => k a fault s' n'
    | Fail e s' n' => Fail e s' n'
    end.

#[global] Instance Db_ret : MRet Db := @ret.
#[global] Instance Db_bind : MBind Db := fun A B k m => bind m k.

(** One storage call: rejected without effect when the plan names it. *)
Definition call {A} (f : Store -> A * Store) : Db A :=
  fun fault s n =>
    if decide (fault = Some n) then Fail (Rejected n) s (S n)
    else let '(a, s') := f s in Ok a s' (S n).

(** [db.transaction('rw', ...)]: all the writes of the body, or none. *)
Definition transaction {A} (body : Db A) : Db A :=
  fun fault s n =>
    match body fault s n with
    | Ok a s' n' => Ok a s' n'
    | Fail e _ n' => Fail e s n'
    end.

(** The effect of each table operation on the store. *)

(** [drafts.put(row)]: insert or replace under the row's id. *)
Definition put_draft (row : DraftRecord.t) (s : Store) : Store :=
  {| drafts := <[DraftRecord.id row := row]> (drafts s);
     snapshots := snapshots s;
     snapshots_key := snapshots_key s |}.

(** [snapshots.get(key)] *)
Definition find_snapshot (key : Z) (s : Store) : option SnapshotRecord.t :=
  List.find (fun r => bool_decide (SnapshotRecord.id r = key)) (snapshots s).

(** The row that [snapshots.add(row)] stores under the key [k]. *)
Definition stored (k : Z) (row : NewSnapshot) : SnapshotRecord.t :=
  {| SnapshotRecord.id := k;
     SnapshotRecord.draftId := new_draftId row;
     SnapshotRecord.docJson := new_docJson row;
     SnapshotRecord.selection := new_selection row;
     SnapshotRecord.createdAt := new_createdAt row |}.

(** [snapshots.add(row)]: the key generator supplies the id and moves on. *)
Definition add_snapshot (row : NewSnapshot) (s : Store) : Store :=
  {| drafts := drafts s;
     snapshots := snapshots s ++ [stored (snapshots_key s) row];
     snapshots_key := snapshots_key s + 1 |}.

(** [snapshots.where('draftId').equals(d)]: the rows of one draft, in key
    order. *)
Definition where_draftId (d : string) (rows : list SnapshotRecord.t)
  : list SnapshotRecord.t :=
  filter (fun r => SnapshotRecord.draftId r = d) rows.

(** [Array.prototype.sort] with the comparator of [sortBy('createdAt')] is
    stable: a row goes in front of the first row that is not older. *)
Fixpoint insert_by_createdAt (r : SnapshotRecord.t) (l : list SnapshotRecord.t)
  : list SnapshotRecord.t :=
  match l with
  | [] => [r]
  | x :: l' =>
      if SnapshotRecord.createdAt r <=? SnapshotRecord.createdAt x
      then r :: l
      else x :: insert_by_createdAt r l'
  end.

Definition sort_by_createdAt (l : list SnapshotRecord.t) : list SnapshotRecord.t :=
  List.fold_right insert_by_createdAt [] l.

(** [snapshots.bulkDelete(keys)] *)
Definition delete_snapshots (keys : list Z) (s : Store) : Store :=
  {| drafts := drafts s;
     snapshots := filter (fun r => SnapshotRecord.id r ∉ keys) (snapshots s);
     snapshots_key := snapshots_key s |}.

Module Dexie.
(** [db.drafts.get(key)] *)
Definition drafts_get (key : string) : Db (option DraftRecord.t) :=
  call (fun s => (drafts s !! key, s)).

(** [db.drafts.put(row)] *)
Definition drafts_put (row : DraftRecord.t) : Db unit :=
  call (fun s => (tt, put_draft row s)).

(** [db.snapshots.get(key)] *)
Definition snapshots_get (key : Z) : Db (option SnapshotRecord.t) :=
  call (fun s => (find_snapshot key s, s)).

(** [db.snapshots.add(row)], which resolves to the new key. *)
Definition snapshots_add (row : NewSnapshot) : Db Z :=
  call (fun s => (snapshots_key s, add_snapshot row s)).

(** [db.snapshots.where('draftId').equals(d).count()] *)
Definition snapshots_count (d : string) : Db Z :=
  call (fun s => (Z.of_nat (length (where_draftId d (snapshots s))), s)).

(** [db.snapshots.where('draftId').equals(d).sortBy('createdAt')] *)
Definition snapshots_sortBy_createdAt (d : string) : Db (list SnapshotRecord.t) :=
  call (fun s => (sort_by_createdAt (where_draftId d (snapshots s)), s)).

(** [db.snapshots.bulkDelete(keys)] *)
Definition snapshots_bulkDelete (keys : list Z) : Db unit :=
  call (fun s => (tt, delete_snapshots keys s)).
End Dexie.

(** [a.slice(0, n)] for an integer [n]. *)
Definition slice0 {A} (n : Z) (a : list A) : list A :=
  if n <? 0 then take (length a - Z.to_nat (- n)) a else take (Z.to_nat n) a.

(** [Boolean(n)] on a number. *)
Definition Boolean (n : Z) : bool := negb (n =? 0).

(** ** The hook [useAutosave(draftId, opts)] *)

(** [useState] and [useRef] cells of one mounted hook. *)
Record Hook : Type := {
  draft : option DraftRecord.t;
  saving : bool;
  error : option StorageFailure;
  bufferRef : DraftUpdate.t;
  timerRef : option Z
}.

Definition initial_hook : Hook :=
  {| draft := None; saving := false; error := None;
     bufferRef := DraftUpdate.empty; timerRef := None |}.

(** How an [async] function ends. *)
Inductive Completion : Type :=
  | Resolved
  | Rejects (e : StorageFailure).

Section useAutosave.
Variable draftId : string.
Variable delayMs : Z.
Variable snapshotLimit : Z.

(** The object literal [next] of [flush] (lines 58-66). *)
Definition flush_next (update : DraftUpdate.t) (prev : option DraftRecord.t) (now : Z)
  : DraftRecord.t :=
  {| DraftRecord.id := draftId;
     DraftRecord.projectName :=
       read (DraftUpdate.projectName update) ?? chain prev DraftRecord.projectName;
     DraftRecord.promptName :=
       read (DraftUpdate.promptName update) ?? chain prev DraftRecord.promptName;
     DraftRecord.docJson :=
       read (DraftUpdate.docJson update) ?? chain prev DraftRecord.docJson;
     DraftRecord.selection :=
       read (DraftUpdate.selection update) ?? chain prev DraftRecord.selection ?? null;
     DraftRecord.updatedAt := now;
     DraftRecord.version :=
       num_or (chain prev (fun p => val (DraftRecord.version p))) 0 + 1 |}.

(** The ring: lines 77-88, inside the transaction. *)
Definition enforce_ring : Db unit :=
  count ← Dexie.snapshots_count draftId;
  if count >? snapshotLimit then
    let toDelete := count - snapshotLimit in
    oldest ← Dexie.snapshots_sortBy_createdAt draftId;
    let ids := filter (fun k => Boolean k) (SnapshotRecord.id <$> slice0 toDelete oldest) in
    if negb (Z.of_nat (length ids) =? 0) then Dexie.snapshots_bulkDelete ids
    else ret tt
  else ret tt.

(** The callback of the transaction (lines 67-89). *)
Definition flush_writes (next : DraftRecord.t) (now : Z) : Db unit :=
  Dexie.drafts_put next;;
  Dexie.snapshots_add
    {| new_draftId := draftId;
       new_docJson := DraftRecord.docJson next;
       new_selection := DraftRecord.selection next ?? null;
       new_createdAt := now |};;
  enforce_ring.

(** [db.transaction('rw', db.drafts, db.snapshots, ...)] *)
Definition flush_transaction (next : DraftRecord.t) (now : Z) : Db unit :=
  transaction (flush_writes next now).

(** The [try] block of [flush]: the prior row is read first, in a call
    of its own, and the transaction follows. *)
Definition flush_try (update : DraftUpdate.t) (now : Z) : Db DraftRecord.t :=
  prev ← Dexie.drafts_get draftId;
  let next := flush_next update prev now in
  flush_transaction next now;;
  ret next.

(** [flush], run without another task between its storage calls. *)
Definition flush (now : Z) (fault : option nat) (w : Hook * Store) : Hook * Store :=
  let '(h, s) := w in
  if negb (DraftUpdate.truthy (bufferRef h)) then w
  else
    let update := bufferRef h in
    match flush_try update now fault s 0%nat with
    | Ok next s' _ =>
        ({| draft := Some next; saving := false; error := None;
            bufferRef := DraftUpdate.empty; timerRef := timerRef h |}, s')
    | Fail e s' _ =>
        ({| draft := draft h; saving := false; error := Some e;
            bufferRef := DraftUpdate.empty; timerRef := timerRef h |}, s')
    end.

(** The object literal [next] of [restoreFromSnapshot] (lines 146-154). *)
Definition restore_next (snap : SnapshotRecord.t) (prev : option DraftRecord.t) (now : Z)
  : DraftRecord.t :=
  {| DraftRecord.id := draftId;
     DraftRecord.projectName := chain prev DraftRecord.projectName;
     DraftRecord.promptName := chain prev DraftRecord.promptName;
     DraftRecord.docJson := SnapshotRecord.docJson snap;
     DraftRecord.selection := SnapshotRecord.selection snap ?? null;
     DraftRecord.updatedAt := now;
     DraftRecord.version :=
       num_or (chain prev (fun p => val (DraftRecord.version p))) 0 + 1 |}.

(** The storage calls of [restoreFromSnapshot]; [None] is the early
    [return] of line 143. *)
Definition restore_calls (snapshotId : Z) (now : Z) : Db (option DraftRecord.t) :=
  snap ← Dexie.snapshots_get snapshotId;
  match snap with
  | None => ret None
  | Some snap =>
      prev ← Dexie.drafts_get draftId;
      let next := restore_next snap prev now in
      Dexie.drafts_put next;;
      ret (Some next)
  end.

(** [restoreFromSnapshot]: no [try], a rejected call rejects the promise. *)
Definition restoreFromSnapshot (snapshotId : Z) (now : Z) (fault : option nat)
    (w : Hook * Store) : Hook * Store * Completion :=
  let '(h, s) := w in
  match restore_calls snapshotId now fault s 0%nat with
  | Ok None s' _ => ((h, s'), Resolved)
  | Ok (Some next) s' _ =>
      (({| draft := Some next; saving := saving h; error := error h;
           bufferRef := bufferRef h; timerRef := timerRef h |}, s'), Resolved)
  | Fail e s' _ => ((h, s'), Rejects e)
  end.

End useAutosave.

(** ** The page around the hook: timers, clock, lifecycle events *)

(** [window.setTimeout] hands out positive ids in sequence.  Pending
    timeouts are kept in the order they were armed, which is the order
    they fall due: the one delay of the hook is added to a clock that does
    not run backwards between two calls.  [flushes] is a ghost trace: the
    time and the buffer taken by every run of the body of [flush]. *)
Record World : Type := {
  hook : Hook;
  store : Store;
  clock : Z;
  timers : list (Z * Z);
  timer_seq : Z;
  flushes : list (Z * DraftUpdate.t)
}.

Definition initial_world (s : Store) (now : Z) : World :=
  {| hook := initial_hook; store := s; clock := now;
     timers := []; timer_seq := 1; flushes := [] |}.

Definition clearTimeout (t : Z) (pending : list (Z * Z)) : list (Z * Z) :=
  filter (fun p => fst p <> t) pending.

(** [if (timerRef.current) window.clearTimeout(timerRef.current)] *)
Definition clear_if_set (ref : option Z) (pending : list (Z * Z)) : list (Z * Z) :=
  match ref with
  | Some t => if Boolean t then clearTimeout t pending else pending
  | None => pending
  end.

Inductive Event : Type :=
  | Change (update : DraftUpdate.t)
  | Elapse (dt : Z) (fault : option nat)
  | VisibilityHidden (fault : option nat)
  | PageHide (fault : option nat)
  | Unmount (fault : option nat)
  | Restore (snapshotId : Z) (fault : option nat).

Section page.
Variable draftId : string.
Variable delayMs : Z.
Variable snapshotLimit : Z.

(** [void flush()] at the current time. *)
Definition run_flush (fault : option nat) (w : World) : World :=
  let '(h, s) := flush draftId snapshotLimit (clock w) fault (hook w, store w) in
  {| hook := h; store := s; clock := clock w;
     timers := timers w; timer_seq := timer_seq w;
     flushes := flushes w ++
       (if DraftUpdate.truthy (bufferRef (hook w))
        then [(clock w, bufferRef (hook w))] else []) |}.

(** [onChange] (lines 98-107). *)
Definition onChange (update : DraftUpdate.t) (w : World) : World :=
  let h := hook w in
  let pending := clear_if_set (timerRef h) (timers w) in
  let t := timer_seq w in
  {| hook := {| draft := draft h; saving := saving h; error := error h;
                bufferRef := DraftUpdate.spread (bufferRef h) update;
                timerRef := Some t |};
     store := store w; clock := clock w;
     timers := pending ++ [(t, clock w + Z.max 0 delayMs)];
     timer_seq := t + 1;
     flushes := flushes w |}.

(** The callback handed to [setTimeout] (lines 103-106), run when the
    timeout [t] is still pending and falls due. *)
Definition fire (fault : option nat) (w : World) (t : Z * Z) : World :=
  if bool_decide (t ∈ timers w) then
    let h := hook w in
    run_flush fault
      {| hook := {| draft := draft h; saving := saving h; error := error h;
                    bufferRef := bufferRef h; timerRef := None |};
         store := store w; clock := Z.max (clock w) (snd t);
         timers := clearTimeout (fst t) (timers w);
         timer_seq := timer_seq w; flushes := flushes w |}
  else w.

(** Time passes: the timeouts due by then fire in order. *)
Definition elapse (dt : Z) (fault : option nat) (w : World) : World :=
  let until := clock w + dt in
  let due := filter (fun p => snd p <= until) (timers w) in
  let w' := List.fold_left (fire fault) due w in
  {| hook := hook w'; store := store w'; clock := Z.max (clock w') until;
     timers := timers w'; timer_seq := timer_seq w'; flushes := flushes w' |}.

(** [onVisibility] with the document hidden, and [onPageHide]
    (lines 111-120). *)
Definition forced_flush (fault : option nat) (w : World) : World :=
  run_flush fault
    {| hook := hook w; store := store w; clock := clock w;
       timers := clear_if_set (timerRef (hook w)) (timers w);
       timer_seq := timer_seq w; flushes := flushes w |}.

(** The cleanup of the last effect (lines 130-138). *)
Definition unmount (fault : option nat) (w : World) : World :=
  let w1 :=
    {| hook := hook w; store := store w; clock := clock w;
       timers := clear_if_set (timerRef (hook w)) (timers w);
       timer_seq := timer_seq w; flushes := flushes w |} in
  if DraftUpdate.truthy (bufferRef (hook w))
     && (DraftUpdate.keys_length (bufferRef (hook w)) >? 0)
  then run_flush fault w1 else w1.

(** [restoreFromSnapshot] at the current time. *)
Definition run_restore (snapshotId : Z) (fault : option nat) (w : World) : World :=
  let '(h, s, _) :=
    restoreFromSnapshot draftId snapshotId (clock w) fault (hook w, store w) in
  {| hook := h; store := s; clock := clock w;
     timers := timers w; timer_seq := timer_seq w; flushes := flushes w |}.

Definition step (w : World) (e : Event) : World :=
  match e with
  | Change update => onChange update w
  | Elapse dt fault => elapse dt fault w
  | VisibilityHidden fault => forced_flush fault w
  | PageHide fault => forced_flush fault w
  | Unmount fault => unmount fault w
  | Restore snapshotId fault => run_restore snapshotId fault w
  end.

Definition run (events : list Event) (w : World) : World :=
  List.fold_left step events w.

End page.

(** ** Observations on the store *)

Definition outcome_store {A} (o : Outcome A) : Store :=
  match o with
  | Ok _ s _ => s
  | Fail _ s _ => s
  end.

(** The rows of one draft identity. *)
Definition ring (d : string) (s : Store) : list SnapshotRecord.t :=
  where_draftId d (snapshots s).

(** How many rows go when the ring is over its limit. *)
Definition excess (d : string) (limit : Z) (s : Store) : nat :=
  Z.to_nat (Z.of_nat (length (ring d s)) - limit).

(** The store that lines 77-88 leave when no call is rejected. *)
Definition evict (d : string) (limit : Z) (s : Store) : Store :=
  let count := Z.of_nat (length (ring d s)) in
  if count >? limit then
    let ids :=
      filter (fun k => Boolean k)
             (SnapshotRecord.id <$> slice0 (count - limit) (sort_by_createdAt (ring d s))) in
    if negb (Z.of_nat (length ids) =? 0) then delete_snapshots ids s else s
  else s.

(** The snapshot that [flush] adds for the next state. *)
Definition snapshot_of (d : string) (next : DraftRecord.t) (now : Z) : NewSnapshot :=
  {| new_draftId := d;
     new_docJson := DraftRecord.docJson next;
     new_selection := DraftRecord.selection next ?? null;
     new_createdAt := now |}.

(** The store that the transaction of [flush] commits. *)
Definition committed (d : string) (limit : Z) (next : DraftRecord.t) (now : Z) (s : Store)
  : Store :=
  evict d limit (add_snapshot (snapshot_of d next now) (put_draft next s)).

(** [a] is not newer than [b]: the order of creation time, then key. *)
Definition not_newer (a b : SnapshotRecord.t) : Prop :=
  SnapshotRecord.createdAt a < SnapshotRecord.createdAt b
  \/ (SnapshotRecord.createdAt a = SnapshotRecord.createdAt b
      /\ SnapshotRecord.id a <= SnapshotRecord.id b).

(** Rows in increasing key order. *)
Definition key_lt (a b : SnapshotRecord.t) : Prop :=
  SnapshotRecord.id a < SnapshotRecord.id b.

(** The version of the live row, 0 when there is none. *)
Definition current_version (d : string) (s : Store) : Z :=
  num_or (chain (drafts s !! d) (fun p => val (DraftRecord.version p))) 0.

(** The snapshot keys handed out so far lie strictly between [lo] and
    [hi] and grow along the table. *)
Fixpoint keys_between (lo hi : Z) (rows : list SnapshotRecord.t) : bool :=
  match rows with
  | [] => lo <? hi
  | r :: rows' =>
      (lo <? SnapshotRecord.id r) && keys_between (SnapshotRecord.id r) hi rows'
  end.

(** What the key generator guarantees of the [snapshots] table: keys are
    positive, distinct, in insertion order, and below the generator. *)
Definition store_wf (s : Store) : Prop :=
  keys_between 0 (snapshots_key s) (snapshots s) = true.

(** [older a b]: [a] was created before [b], the key deciding between
    equal timestamps. *)
Definition older (a b : SnapshotRecord.t) : Prop :=
  SnapshotRecord.createdAt a < SnapshotRecord.createdAt b
  \/ (SnapshotRecord.createdAt a = SnapshotRecord.createdAt b
      /\ SnapshotRecord.id a < SnapshotRecord.id b).

(** ** Sequences of operations of one hook *)

Inductive Op : Type :=
  | OpFlush (update : DraftUpdate.t) (now : Z) (fault : option nat)
  | OpRestore (snapshotId : Z) (now : Z) (fault : option nat).

Section operations.
Variable draftId : string.
Variable snapshotLimit : Z.

(** The store after one operation, and whether the operation wrote. *)
Definition apply_op (op : Op) (s : Store) : Store * bool :=
  match op with
  | OpFlush update now fault =>
      match flush_try draftId snapshotLimit update now fault s 0%nat with
      | Ok _ s' _ => (s', true)
      | Fail _ s' _ => (s', false)
      end
  | OpRestore snapshotId now fault =>
      match restore_calls draftId snapshotId now fault s 0%nat with
      | Ok (Some _) s' _ => (s', true)
      | Ok None s' _ => (s', false)
      | Fail _ s' _ => (s', false)
      end
  end.

Fixpoint run_ops (ops : list Op) (s : Store) : Store :=
  match ops with
  | [] => s
  | op :: ops' => run_ops ops' (fst (apply_op op s))
  end.

(** The version of the Draft row seen after each successful operation. *)
Fixpoint observed_versions (ops : list Op) (s : Store) : list Z :=
  match ops with
  | [] => []
  | op :: ops' =>
      let '(s', wrote) := apply_op op s in
      (if wrote then [current_version draftId s'] else [])
      ++ observed_versions ops' s'
  end.

(** How many operations succeeded. *)
Fixpoint successes (ops : list Op) (s : Store) : nat :=
  match ops with
  | [] => 0%nat
  | op :: ops' =>
      let '(s', wrote) := apply_op op s in
      ((if wrote then 1 else 0) + successes ops' s')%nat
  end.

(** How many flushes succeeded. *)
Fixpoint flushes_done (ops : list Op) (s : Store) : nat :=
  match ops with
  | [] => 0%nat
  | op :: ops' =>
      let '(s', wrote) := apply_op op s in
      ((match op with
        | OpFlush _ _ _ => if wrote then 1 else 0
        | OpRestore _ _ _ => 0
        end) + flushes_done ops' s')%nat
  end.

(** *** Two flushes in flight

    [flush] awaits [db.drafts.get] before it opens its transaction, so a
    second flush started meanwhile reads the same prior row.  The
    schedule below is: both reads, then the transaction of the first,
    then the transaction of the second. *)
Definition flush_write (update : DraftUpdate.t) (prev : option DraftRecord.t) (now : Z)
    (s : Store) : Store :=
  outcome_store
    (flush_transaction draftId snapshotLimit (flush_next draftId update prev now) now
       None s 1%nat).

Definition flushes_interleaved (a : DraftUpdate.t) (now_a : Z)
    (b : DraftUpdate.t) (now_b : Z) (s : Store) : Store :=
  let prev_a := drafts s !! draftId in
  let prev_b := drafts s !! draftId in
  flush_write b prev_b now_b (flush_write a prev_a now_a s).

Definition flushes_serial (a : DraftUpdate.t) (now_a : Z)
    (b : DraftUpdate.t) (now_b : Z) (s : Store) : Store :=
  run_ops [OpFlush a now_a None; OpFlush b now_b None] s.

(** The whole of [flush], prior read included, behaves as one atomic
    step if two flushes in flight together have the effect of running
    one after the other, in some order. *)
Definition flush_isolated (a : DraftUpdate.t) (now_a : Z)
    (b : DraftUpdate.t) (now_b : Z) (s : Store) : Prop :=
  flushes_interleaved a now_a b now_b s = flushes_serial a now_a b now_b s
  \/ flushes_interleaved a now_a b now_b s = flushes_serial b now_b a now_a s.

(** *** What a caller of [restoreFromSnapshot] can see

    The promise it returns and the [error] cell of the hook are the
    only channels on which a missing snapshot could be reported. *)
Definition restore_reports (snapshotId : Z) (now : Z) (w : Hook * Store) : Prop :=
  let '(h', _, c) := restoreFromSnapshot draftId snapshotId now None w in
  c <> Resolved \/ error h' <> error (fst w).

End operations.

(** ** The next state in the words of the specification

    "For each recognized attribute, take the buffered value if present,
    else the prior row's value, else leave absent": presence is ownership
    of the key by the buffer, absence reads as undefined. *)
Definition spec_take {A} (buffered : prop A) (prior : js A) : js A :=
  match buffered with
  | Some v => v
  | None => prior
  end.

(** What the code takes: the buffered value when it is an actual value. *)
Definition code_take {A} (buffered : prop A) (prior : js A) : js A :=
  match buffered with
  | Some (val a) => val a
  | _ => prior
  end.

(** ** Bursts of edits *)

(** [onChange u0], then each further [onChange u] after a pause [g]. *)
Definition burst (u0 : DraftUpdate.t) (rest : list (Z * DraftUpdate.t)) : list Event :=
  Change u0 :: (rest ≫= fun gu => [Elapse (fst gu) None; Change (snd gu)]).

(** The left-to-right field merge of the updates of a burst, from [{}]. *)
Definition merged (u0 : DraftUpdate.t) (rest : list (Z * DraftUpdate.t)) : DraftUpdate.t :=
  List.fold_left DraftUpdate.spread (u0 :: (snd <$> rest)) DraftUpdate.empty.

(** The hook in the middle of a burst: the edits so far are in the buffer,
    the one pending timeout was armed for them at time [t], which is now,
    and nothing has reached the store since [w0]. *)
Definition armed (delayMs : Z) (w0 w : World) (buffer : DraftUpdate.t) (t : Z) : Prop :=
  exists id,
    timers w = [(id, t + Z.max 0 delayMs)]
    /\ timerRef (hook w) = Some id
    /\ 0 < id
    /\ timer_seq w = id + 1
    /\ clock w = t
    /\ bufferRef (hook w) = buffer
    /\ store w = store w0
    /\ flushes w = flushes w0.

(** The time the burst takes. *)
Definition burst_time (rest : list (Z * DraftUpdate.t)) : Z :=
  List.fold_right Z.add 0 (List.map fst rest).

(** ** The rest of the hook

    The effect that loads the latest draft when the hook mounts
    (lines 34-47).  [cancelled] tells whether the cleanup of the effect
    ran before the read settled. *)
Definition load_on_mount (draftId : string) (cancelled : bool) (fault : option nat)
    (w : Hook * Store) : Hook * Store :=
  let '(h, s) := w in
  match Dexie.drafts_get draftId fault s 0%nat with
  | Ok existing s' _ =>
      if negb cancelled
      then ({| draft := existing; saving := saving h; error := error h;
               bufferRef := bufferRef h; timerRef := timerRef h |}, s')
      else (h, s')
  | Fail e s' _ =>
      if negb cancelled
      then ({| draft := draft h; saving := saving h; error := Some e;
               bufferRef := bufferRef h; timerRef := timerRef h |}, s')
      else (h, s')
  end.

(** The page right after the hook has mounted on a store and the load of
    lines 34-47 has settled, whichever way: the row was read, the read was
    rejected ([fault] names its call), or the effect was cancelled
    first. *)
Definition loaded_world (draftId : string) (cancelled : bool) (fault : option nat)
    (s : Store) (now : Z) : World :=
  let '(h, s') := load_on_mount draftId cancelled fault (initial_hook, s) in
  {| hook := h; store := s'; clock := now;
     timers := []; timer_seq := 1; flushes := [] |}.


(** ** Flushes in flight: what is observed

    The versions seen after each of the two commits of
    [flushes_interleaved], and whether the transaction of a flush in
    flight commits. *)
Definition versions_interleaved (d : string) (limit : Z) (a : DraftUpdate.t) (now_a : Z)
    (b : DraftUpdate.t) (now_b : Z) (s : Store) : list Z :=
  let prev := drafts s !! d in
  let s1 := flush_write d limit a prev now_a s in
  let s2 := flush_write d limit b prev now_b s1 in
  [current_version d s1; current_version d s2].

Definition flush_commits (d : string) (limit : Z) (update : DraftUpdate.t)
    (prev : option DraftRecord.t) (now : Z) (s : Store) : bool :=
  match flush_transaction d limit (flush_next d update prev now) now None s 1%nat with
  | Ok _ _ _ => true
  | Fail _ _ _ => false
  end.

(** How many of the flushes that ran took a buffer with at least one
    attribute. *)
Definition edits_flushed (w : World) : nat :=
  length (filter (fun f => 0 < DraftUpdate.keys_length (snd f)) (flushes w)).

(** ** The callers of the hook: [App] and [PromptEditor] *)

Module App.
(** The two name inputs and [initializedRef]. *)
Record t : Type := {
  projectName : string;
  promptName : string;
  initializedRef : bool
}.








End App.

Module PromptEditor.
End PromptEditor.

(** ** Invariants of the page and of the store *)

(** At most one timeout is pending, [timerRef] names it, and an idle page
    has nothing buffered. *)
Definition timer_inv (w : World) : Prop :=
  0 < timer_seq w
  /\ ((timers w = [] /\ bufferRef (hook w) = DraftUpdate.empty)
      \/ exists id due,
           timers w = [(id, due)] /\ timerRef (hook w) = Some id /\ 0 < id < timer_seq w).

(** A selection that is an object or null. *)
Definition defined {A} (x : js A) : bool :=
  match x with
  | undefined => false
  | _ => true
  end.

(** Every stored snapshot, and the Draft row of [d] if there is one,
    carries a selection that is an object or null. *)
Definition selections_defined (d : string) (s : Store) : Prop :=
  Forall (fun r => defined (SnapshotRecord.selection r) = true) (snapshots s)
  /\ match drafts s !! d with
     | Some row => defined (DraftRecord.selection row) = true
     | None => True
     end.

(** The rows of a ring follow the clock: none is older than the one
    before it, and none is later than [now]. *)
Definition on_clock (now : Z) (rows : list SnapshotRecord.t) : Prop :=
  StronglySorted
    (fun a b => SnapshotRecord.createdAt a <= SnapshotRecord.createdAt b) rows
  /\ Forall (fun r => SnapshotRecord.createdAt r <= now) rows.

(** ** Sample data

    The store of the scenario of the specification after its three
    flushes with [snapshotLimit = 2], next to a snapshot of another
    draft. *)
Definition snapshot_1500 : SnapshotRecord.t :=
  {| SnapshotRecord.id := 2; SnapshotRecord.draftId := "current";
     SnapshotRecord.docJson := val (JStr "second");
     SnapshotRecord.selection := val {| from := 2; to := 2 |};
     SnapshotRecord.createdAt := 1500 |}.

Definition snapshot_3000 : SnapshotRecord.t :=
  {| SnapshotRecord.id := 3; SnapshotRecord.draftId := "current";
     SnapshotRecord.docJson := val (JStr "third");
     SnapshotRecord.selection := val {| from := 3; to := 3 |};
     SnapshotRecord.createdAt := 3000 |}.

Definition snapshot_foreign : SnapshotRecord.t :=
  {| SnapshotRecord.id := 4; SnapshotRecord.draftId := "other";
     SnapshotRecord.docJson := val (JStr "foreign");
     SnapshotRecord.selection := null;
     SnapshotRecord.createdAt := 3100 |}.

Definition store_two_drafts : Store :=
  {| drafts :=
       <["current" := {| DraftRecord.id := "current";
                         DraftRecord.projectName := val "notes";
                         DraftRecord.promptName := val "intro";
                         DraftRecord.docJson := val (JStr "third");
                         DraftRecord.selection := val {| from := 3; to := 3 |};
                         DraftRecord.updatedAt := 3000;
                         DraftRecord.version := 3 |}]> ∅;
     snapshots := [snapshot_1500; snapshot_3000; snapshot_foreign];
     snapshots_key := 5 |}.

(** The sample table with one more snapshot of the current draft, taken
    at the same millisecond as the one of t=1500. *)
Definition snapshot_1500_again : SnapshotRecord.t :=
  {| SnapshotRecord.id := 5; SnapshotRecord.draftId := "current";
     SnapshotRecord.docJson := val (JStr "second, again");
     SnapshotRecord.selection := null;
     SnapshotRecord.createdAt := 1500 |}.

Definition store_over_limit : Store :=
  {| drafts := drafts store_two_drafts;
     snapshots := [snapshot_1500; snapshot_3000; snapshot_foreign; snapshot_1500_again];
     snapshots_key := 6 |}.

(** An edit of the document, as the editor reports it. *)
Definition edit_doc (text : string) (pos : Z) : DraftUpdate.t :=
  {| DraftUpdate.projectName := None;
     DraftUpdate.promptName := None;
     DraftUpdate.docJson := Some (val (JStr text));
     DraftUpdate.selection := Some (val {| from := pos; to := pos |}) |}.

(** The scenario of the specification: flushes at t=0, t=1500 and t=3000,
    then a restore of the snapshot of t=1500. *)
Definition scenario : list Op :=
  [ OpFlush (edit_doc "first" 1) 0 None;
    OpFlush (edit_doc "second" 2) 1500 None;
    OpFlush (edit_doc "third" 3) 3000 None;
    OpRestore 2 4000 None ].

(** An update of the selection alone, as the editor reports one. *)
Definition select (sel : js SelectionSnapshot) : DraftUpdate.t :=
  {| DraftUpdate.projectName := None;
     DraftUpdate.promptName := None;
     DraftUpdate.docJson := None;
     DraftUpdate.selection := Some sel |}.

(** One edit, flushed by its timeout; then the page is hidden and goes
    away with nothing buffered. *)
Definition edit_then_leave : list Event :=
  [ Change (edit_doc "hello" 5); Elapse 1200 None;
    VisibilityHidden None; PageHide None ].

(** An edit of the project name alone. *)
Definition edit_project_name : DraftUpdate.t :=
  {| DraftUpdate.projectName := Some (val "renamed");
     DraftUpdate.promptName := None;
     DraftUpdate.docJson := None;
     DraftUpdate.selection := None |}.

(** Two more edits, 300 ms and 999 ms after the ones before them. *)
Definition sample_burst : list (Z * DraftUpdate.t) :=
  [ (300, edit_project_name); (999, edit_doc "hello world" 11) ].

(** * Properties *)

(** ** The storage monad *)

Lemma call_run {A} (f : Store -> A * Store) (s : Store) (n : nat) :
  call f None s n = Ok (fst (f s)) (snd (f s)) (S n).
Proof. unfold call. destruct (decide _) as [E|_]; [discriminate E|]. by destruct (f s). Qed.

Lemma call_fault {A} (f : Store -> A * Store) (s : Store) (n : nat) :
  call f (Some n) s n = Fail (Rejected n) s (S n).
Proof. unfold call. by rewrite decide_True. Qed.

Lemma call_pass {A} (f : Store -> A * Store) (fault : option nat) (s : Store) (n : nat) :
  fault <> Some n -> call f fault s n = Ok (fst (f s)) (snd (f s)) (S n).
Proof. intros H. unfold call. rewrite decide_False by done. by destruct (f s). Qed.

Lemma bind_run {A B} (m : Db A) (k : A -> Db B) fault s n :
  (m ≫= k) fault s n =
  match m fault s n with
  | Ok a s' n' => k a fault s' n'
  | Fail e s' n' => Fail e s' n'
  end.
Proof. reflexivity. Qed.

(** A call either is rejected and leaves the store as it was, or goes
    through with its effect. *)
Lemma call_cases {A} (f : Store -> A * Store) fault s n :
  (fault = Some n /\ call f fault s n = Fail (Rejected n) s (S n))
  \/ (fault <> Some n /\ call f fault s n = Ok (fst (f s)) (snd (f s)) (S n)).
Proof.
  destruct (decide (fault = Some n)) as [->|Hne].
  - left. split; [done | apply call_fault].
  - right. split; [done | by apply call_pass].
Qed.

(** ** Flush: the next state (C2) *)

Lemma coalesce_code_take {A} (buffered : prop A) (prior : js A) :
  read buffered ?? prior = code_take buffered prior.
Proof. by destruct buffered as [[| |a]|]. Qed.

(** C2, amended.  The next state of [flush] takes, for each attribute, the
    buffered value when the buffer holds an actual value for it, and the
    prior row's value otherwise (undefined when there is no prior row); a
    buffered null or undefined does not override the prior value, and a
    selection that is null or undefined on both sides is stored as null.
    [updatedAt] is the flush time and [version] is the prior version plus
    1, or 1 without a prior row. *)
Theorem flush_next_takes_values (d : string) (update : DraftUpdate.t)
    (prev : option DraftRecord.t) (now : Z) :
  let next := flush_next d update prev now in
  DraftRecord.id next = d
  /\ DraftRecord.projectName next
     = code_take (DraftUpdate.projectName update) (chain prev DraftRecord.projectName)
  /\ DraftRecord.promptName next
     = code_take (DraftUpdate.promptName update) (chain prev DraftRecord.promptName)
  /\ DraftRecord.docJson next
     = code_take (DraftUpdate.docJson update) (chain prev DraftRecord.docJson)
  /\ DraftRecord.selection next
     = code_take (DraftUpdate.selection update) (chain prev DraftRecord.selection) ?? null
  /\ DraftRecord.updatedAt next = now
  /\ DraftRecord.version next
     = match prev with
       | Some p => DraftRecord.version p + 1
       | None => 1
       end.
Proof.
  cbn. repeat split; try apply coalesce_code_take.
  - by rewrite <- coalesce_code_take.
  - by destruct prev.
Qed.

(** C2, as stated, fails: with a prior selection [{from: 1, to: 2}] and a
    buffer holding [selection: null], the next state keeps the prior
    selection where the specification takes the buffered null. *)
Lemma flush_next_null_selection_not_taken :
  let prev := Some {| DraftRecord.id := "current";
                      DraftRecord.projectName := undefined;
                      DraftRecord.promptName := undefined;
                      DraftRecord.docJson := val (JStr "draft");
                      DraftRecord.selection := val {| from := 1; to := 2 |};
                      DraftRecord.updatedAt := 10;
                      DraftRecord.version := 1 |} in
  let update := {| DraftUpdate.projectName := None;
                   DraftUpdate.promptName := None;
                   DraftUpdate.docJson := None;
                   DraftUpdate.selection := Some null |} in
  DraftRecord.selection (flush_next "current" update prev 20)
    = val {| from := 1; to := 2 |}
  /\ spec_take (DraftUpdate.selection update) (chain prev DraftRecord.selection) = null
  /\ DraftRecord.selection (flush_next "current" update prev 20)
     <> spec_take (DraftUpdate.selection update) (chain prev DraftRecord.selection).
Proof. cbn. repeat split. discriminate. Qed.

(** ** Restore (C8, C9, C10) *)

Lemma restore_calls_found d key now s n snap :
  find_snapshot key s = Some snap ->
  restore_calls d key now None s n
  = Ok (Some (restore_next d snap (drafts s !! d) now))
       (put_draft (restore_next d snap (drafts s !! d) now) s)
       (S (S (S n))).
Proof.
  intros Hfind. unfold restore_calls, Dexie.snapshots_get, Dexie.drafts_get, Dexie.drafts_put.
  rewrite bind_run, call_run. cbn [fst snd].
  rewrite Hfind.
  rewrite bind_run, call_run. cbn [fst snd].
  rewrite bind_run, call_run. reflexivity.
Qed.

Lemma restore_calls_missing d key now fault s n :
  find_snapshot key s = None ->
  restore_calls d key now fault s n
  = if decide (fault = Some n) then Fail (Rejected n) s (S n) else Ok None s (S n).
Proof.
  intros Hfind. unfold restore_calls, Dexie.snapshots_get.
  rewrite bind_run.
  destruct (call_cases (fun s0 => (find_snapshot key s0, s0)) fault s n)
    as [[-> ->]|[Hne ->]].
  - by rewrite decide_True.
  - rewrite decide_False by done. cbn [fst snd]. by rewrite Hfind.
Qed.

(** Whatever call is rejected, [restoreFromSnapshot] leaves the snapshot
    table and its key generator alone. *)
Lemma restore_calls_snapshots d key now fault s n :
  snapshots (outcome_store (restore_calls d key now fault s n)) = snapshots s
  /\ snapshots_key (outcome_store (restore_calls d key now fault s n)) = snapshots_key s.
Proof.
  unfold restore_calls, Dexie.snapshots_get, Dexie.drafts_get, Dexie.drafts_put.
  rewrite bind_run.
  match goal with |- context [call ?f fault s n] =>
    destruct (call_cases f fault s n) as [[_ ->]|[_ ->]] end; [done|].
  cbn [fst snd].
  destruct (find_snapshot key s) as [snap|]; [|done].
  rewrite bind_run.
  match goal with |- context [call ?f fault s ?m] =>
    destruct (call_cases f fault s m) as [[_ ->]|[_ ->]] end; [done|].
  cbn [fst snd]. rewrite bind_run.
  match goal with |- context [call ?f fault s ?m] =>
    destruct (call_cases f fault s m) as [[_ ->]|[_ ->]] end; done.
Qed.

(** C8.  Restoring an existing snapshot upserts the Draft row of the
    hook's identity: the document comes from the snapshot, and so does the
    selection (an undefined one is stored as null); the two names are
    carried over from the current row; the version is the current one
    plus 1, or 1 without a row.  The rows of other identities stay, and the
    snapshot table is left exactly as it was, key generator included; that
    last part holds whichever storage call is rejected. *)
Theorem restore_moves_draft_only (d : string) (key now : Z) (h : Hook) (s : Store)
    (snap : SnapshotRecord.t) :
  find_snapshot key s = Some snap ->
  let prev := drafts s !! d in
  let '(h', s', c) := restoreFromSnapshot d key now None (h, s) in
  (exists next,
      drafts s' !! d = Some next /\ draft h' = Some next
      /\ DraftRecord.docJson next = SnapshotRecord.docJson snap
      /\ DraftRecord.selection next = SnapshotRecord.selection snap ?? null
      /\ (SnapshotRecord.selection snap <> undefined ->
          DraftRecord.selection next = SnapshotRecord.selection snap)
      /\ DraftRecord.projectName next = chain prev DraftRecord.projectName
      /\ DraftRecord.promptName next = chain prev DraftRecord.promptName
      /\ DraftRecord.version next = current_version d s + 1
      /\ DraftRecord.updatedAt next = now)
  /\ (forall d', d' <> d -> drafts s' !! d' = drafts s !! d')
  /\ snapshots s' = snapshots s
  /\ snapshots_key s' = snapshots_key s
  /\ c = Resolved
  /\ (forall fault,
        snapshots (snd (fst (restoreFromSnapshot d key now fault (h, s)))) = snapshots s).
Proof.
  intros Hfind prev. unfold restoreFromSnapshot.
  rewrite (restore_calls_found d key now s 0%nat snap Hfind).
  split; [|split; [|split; [|split; [|split]]]]; try reflexivity.
  - exists (restore_next d snap (drafts s !! d) now). cbn.
    rewrite lookup_insert_eq.
    split; [done|]. split; [done|]. split; [done|]. split; [done|].
    split; [intros Hsel; by destruct (SnapshotRecord.selection snap)|].
    split; [done|]. split; [done|]. split; [|done].
    unfold current_version. by destruct (drafts s !! d).
  - intros d' Hne. cbn. by rewrite lookup_insert_ne.
  - intros fault.
    pose proof (restore_calls_snapshots d key now fault s 0%nat) as [Hs _].
    destruct (restore_calls d key now fault s 0%nat) as [[next|] s' n'|e s' n']; exact Hs.
Qed.

(** Restoring the snapshot of t=1500 on the sample store. *)
Lemma restore_moves_draft_only_witness :
  find_snapshot 2 store_two_drafts = Some snapshot_1500
  /\ snapshots (snd (fst (restoreFromSnapshot "current" 2 4000 None
                            (initial_hook, store_two_drafts))))
     = snapshots store_two_drafts
  /\ current_version "current"
       (snd (fst (restoreFromSnapshot "current" 2 4000 None
                    (initial_hook, store_two_drafts)))) = 4.
Proof.
  split; [reflexivity|].
  pose proof (restore_moves_draft_only "current" 2 4000 initial_hook store_two_drafts
                snapshot_1500 eq_refl) as H.
  destruct (restoreFromSnapshot "current" 2 4000 None (initial_hook, store_two_drafts))
    as [[h' s'] c].
  destruct H as ((next & Hrow & _ & _ & _ & _ & _ & _ & Hver & _) & _ & Hsnap & _).
  split; [exact Hsnap|].
  cbn [fst snd]. unfold current_version. rewrite Hrow. cbn. rewrite Hver. reflexivity.
Defined.

(** C9, amended.  With no stored row under [snapshotId], restore is a
    silent no-op: the promise resolves as it does after a restore, and the
    Draft rows, the snapshot table and every cell of the hook, the error
    cell included, are as before.  This holds too when the lookup itself is
    rejected, except that the promise is then rejected. *)
Theorem restore_missing_is_silent_noop (d : string) (key now : Z) (h : Hook) (s : Store) :
  find_snapshot key s = None ->
  restoreFromSnapshot d key now None (h, s) = ((h, s), Resolved)
  /\ forall fault, fst (restoreFromSnapshot d key now fault (h, s)) = (h, s).
Proof.
  intros Hfind. unfold restoreFromSnapshot. split.
  - by rewrite (restore_calls_missing d key now None s 0%nat Hfind).
  - intros fault. rewrite (restore_calls_missing d key now fault s 0%nat Hfind).
    by destruct (decide _).
Qed.

(** No snapshot has key 7 in the sample store. *)
Lemma restore_missing_is_silent_noop_witness :
  find_snapshot 7 store_two_drafts = None
  /\ restoreFromSnapshot "current" 7 4000 None (initial_hook, store_two_drafts)
     = ((initial_hook, store_two_drafts), Resolved).
Proof.
  split; [reflexivity|].
  apply (restore_missing_is_silent_noop "current" 7 4000 initial_hook store_two_drafts).
  reflexivity.
Defined.

(** C9, as stated, fails in its "reports not found": for the missing key
    7 the promise resolves and the error cell is untouched, so nothing
    tells the caller that no snapshot was found. *)
Lemma restore_missing_not_reported :
  find_snapshot 7 store_two_drafts = None
  /\ ~ restore_reports "current" 7 4000 (initial_hook, store_two_drafts).
Proof.
  split; [reflexivity|].
  unfold restore_reports, restoreFromSnapshot.
  rewrite (restore_calls_missing "current" 7 4000 None store_two_drafts 0%nat eq_refl).
  cbn. intros [H|H]; by apply H.
Qed.

(** C10.  [restoreFromSnapshot] looks the snapshot up by its key alone and
    never compares its [draftId] with the identity of the hook: a snapshot
    owned by another draft is applied to the hook's Draft row all the
    same, and the Draft row of the snapshot's owner is not touched. *)
Theorem restore_ignores_snapshot_owner (d : string) (key now : Z) (h : Hook) (s : Store)
    (snap : SnapshotRecord.t) :
  find_snapshot key s = Some snap ->
  SnapshotRecord.draftId snap <> d ->
  let '(h', s', c) := restoreFromSnapshot d key now None (h, s) in
  drafts s' !! d = Some (restore_next d snap (drafts s !! d) now)
  /\ draft h' = Some (restore_next d snap (drafts s !! d) now)
  /\ DraftRecord.docJson (restore_next d snap (drafts s !! d) now)
     = SnapshotRecord.docJson snap
  /\ DraftRecord.selection (restore_next d snap (drafts s !! d) now)
     = SnapshotRecord.selection snap ?? null
  /\ drafts s' !! SnapshotRecord.draftId snap = drafts s !! SnapshotRecord.draftId snap
  /\ c = Resolved.
Proof.
  intros Hfind Hother. unfold restoreFromSnapshot.
  rewrite (restore_calls_found d key now s 0%nat snap Hfind). cbn.
  rewrite lookup_insert_eq, lookup_insert_ne by done. done.
Qed.

(** The hook of ["current"] restores the snapshot of another draft. *)
Lemma restore_ignores_snapshot_owner_witness :
  find_snapshot 4 store_two_drafts = Some snapshot_foreign
  /\ SnapshotRecord.draftId snapshot_foreign <> "current"
  /\ (DraftRecord.docJson <$>
        drafts (snd (fst (restoreFromSnapshot "current" 4 4000 None
                            (initial_hook, store_two_drafts)))) !! "current")
     = Some (val (JStr "foreign")).
Proof.
  assert (Hother : SnapshotRecord.draftId snapshot_foreign <> "current") by discriminate.
  split; [reflexivity|]. split; [exact Hother|].
  pose proof (restore_ignores_snapshot_owner "current" 4 4000 initial_hook store_two_drafts
                snapshot_foreign eq_refl Hother) as H.
  destruct (restoreFromSnapshot "current" 4 4000 None (initial_hook, store_two_drafts))
    as [[h' s'] c].
  destruct H as (Hrow & _). cbn [fst snd]. rewrite Hrow. reflexivity.
Defined.

(** ** Flush with an empty buffer (C1) *)

(** C1 does not hold of the code.  The guard [if (!bufferRef.current)] of
    [flush] tests an object, which is never falsy, so a flush with nothing
    buffered goes on to write.  Here the page of the sample store is
    hidden with no edit pending and [snapshotLimit = 2]: the Draft row
    moves from version 3 to version 4, a snapshot is added under key 5,
    and the ring drops the snapshot of t=1500 to make room for it. *)
Lemma flush_empty_buffer_writes :
  let w0 := initial_world store_two_drafts 5000 in
  let w := run "current" 1200 2 [VisibilityHidden None] w0 in
  bufferRef (hook w0) = DraftUpdate.empty
  /\ DraftUpdate.keys_length (bufferRef (hook w0)) = 0
  /\ current_version "current" (store w0) = 3
  /\ current_version "current" (store w) = 4
  /\ SnapshotRecord.id <$> ring "current" (store w0) = [2; 3]
  /\ SnapshotRecord.id <$> ring "current" (store w) = [3; 5]
  /\ error (hook w) = None.
Proof. vm_compute. repeat split. Qed.

(** ** Keys of the snapshot table *)

Lemma keys_between_bounds lo hi rows :
  keys_between lo hi rows = true ->
  lo < hi /\ Forall (fun r => lo < SnapshotRecord.id r < hi) rows.
Proof.
  revert lo. induction rows as [|r rows IH]; intros lo H; cbn in H.
  - split; [lia | constructor].
  - apply andb_true_iff in H as [Hlo Hrest].
    destruct (IH _ Hrest) as [Hhi Hall]. split; [lia|].
    constructor; [lia|]. eapply Forall_impl; [exact Hall|]. cbn. intros; lia.
Qed.

Lemma keys_between_sorted lo hi rows :
  keys_between lo hi rows = true -> StronglySorted key_lt rows.
Proof.
  revert lo. induction rows as [|r rows IH]; intros lo H; cbn in H.
  - constructor.
  - apply andb_true_iff in H as [Hlo Hrest]. constructor; [by eapply IH|].
    destruct (keys_between_bounds _ _ _ Hrest) as [_ Hall].
    eapply Forall_impl; [exact Hall|]. unfold key_lt. cbn. intros; lia.
Qed.

Lemma keys_between_snoc lo hi rows r :
  SnapshotRecord.id r = hi ->
  keys_between lo hi rows = true -> keys_between lo (hi + 1) (rows ++ [r]) = true.
Proof.
  intros Hr. revert lo. induction rows as [|x rows IH]; intros lo H; cbn in *.
  - apply andb_true_iff. split; lia.
  - apply andb_true_iff in H as [Hlo Hrest]. apply andb_true_iff. split; [done|].
    by apply IH.
Qed.

Lemma keys_between_lower lo lo' hi rows :
  lo' <= lo -> keys_between lo hi rows = true -> keys_between lo' hi rows = true.
Proof.
  destruct rows as [|r rows]; cbn; intros Hle H.
  - lia.
  - apply andb_true_iff in H as [Hlo Hrest]. apply andb_true_iff. split; [lia|done].
Qed.

Lemma keys_between_filter (P : SnapshotRecord.t -> Prop) {Pdec : forall r, Decision (P r)}
    lo hi rows :
  keys_between lo hi rows = true -> keys_between lo hi (filter P rows) = true.
Proof.
  revert lo. induction rows as [|r rows IH]; intros lo H; [done|].
  cbn in H. apply andb_true_iff in H as [Hlo Hrest].
  rewrite filter_cons. destruct (decide (P r)).
  - cbn. apply andb_true_iff. split; [done | by apply IH].
  - apply IH. eapply keys_between_lower; [|exact Hrest]. lia.
Qed.

(** Rows in key order are told apart by their key. *)
Lemma key_lt_inj rows x y :
  StronglySorted key_lt rows ->
  x ∈ rows -> y ∈ rows -> SnapshotRecord.id x = SnapshotRecord.id y -> x = y.
Proof.
  induction 1 as [|r rows Hs IH Hall]; intros Hx Hy Heq.
  - by apply elem_of_nil in Hx.
  - rewrite Forall_forall in Hall.
    apply elem_of_cons in Hx as [->|Hx]; apply elem_of_cons in Hy as [->|Hy]; auto.
    + apply Hall in Hy. unfold key_lt in Hy. lia.
    + apply Hall in Hx. unfold key_lt in Hx. lia.
Qed.

Lemma key_lt_NoDup rows : StronglySorted key_lt rows -> NoDup rows.
Proof.
  induction 1 as [|r rows Hs IH Hall]; constructor; [|done].
  intros Hin. rewrite Forall_forall in Hall. apply Hall in Hin.
  unfold key_lt in Hin. lia.
Qed.

Lemma key_lt_filter (P : SnapshotRecord.t -> Prop) {Pdec : forall r, Decision (P r)} rows :
  StronglySorted key_lt rows -> StronglySorted key_lt (filter P rows).
Proof.
  induction 1 as [|r rows Hs IH Hall]; [constructor|].
  rewrite filter_cons. destruct (decide (P r)); [|done].
  constructor; [done|]. rewrite Forall_forall in *.
  intros y Hy. apply Hall. by apply list_elem_of_filter in Hy as [_ Hy].
Qed.

(** ** The stable sort by creation time *)

Lemma insert_by_createdAt_perm r l : insert_by_createdAt r l ≡ₚ r :: l.
Proof.
  induction l as [|x l IH]; cbn; [done|].
  destruct (_ <=? _); [done|]. rewrite IH. apply Permutation_swap.
Qed.

Lemma sort_by_createdAt_perm l : sort_by_createdAt l ≡ₚ l.
Proof.
  induction l as [|x l IH]; cbn; [done|].
  rewrite insert_by_createdAt_perm. by rewrite IH.
Qed.

Lemma not_newer_trans : Transitive not_newer.
Proof. intros a b c. unfold not_newer. lia. Qed.

#[local] Existing Instance not_newer_trans.

Lemma insert_by_createdAt_sorted r l :
  StronglySorted not_newer l ->
  Forall (key_lt r) l ->
  StronglySorted not_newer (insert_by_createdAt r l).
Proof.
  induction 1 as [|x l Hs IH Hall]; intros Hkeys; cbn.
  - repeat constructor.
  - apply Forall_cons in Hkeys as [Hx Hkeys].
    destruct (SnapshotRecord.createdAt r <=? SnapshotRecord.createdAt x) eqn:Hle.
    + apply Z.leb_le in Hle. constructor; [by constructor|].
      assert (Hrx : not_newer r x) by (unfold not_newer, key_lt in *; lia).
      constructor; [done|].
      eapply Forall_impl; [exact Hall|]. cbn. intros y Hy. by etrans.
    + apply Z.leb_gt in Hle. constructor; [by apply IH|].
      rewrite insert_by_createdAt_perm. constructor; [|done].
      unfold not_newer. lia.
Qed.

(** On rows in key order the stable sort orders by creation time, then key. *)
Lemma sort_by_createdAt_sorted l :
  StronglySorted key_lt l -> StronglySorted not_newer (sort_by_createdAt l).
Proof.
  induction 1 as [|x l Hs IH Hall]; cbn; [constructor|].
  apply insert_by_createdAt_sorted; [done|]. by rewrite sort_by_createdAt_perm.
Qed.

(** ** What ring eviction keeps and what it deletes *)

Section evicted_rows.
Variable rows : list SnapshotRecord.t.
Variable k : nat.
Hypothesis rows_in_key_order : StronglySorted key_lt rows.

Let sorted := sort_by_createdAt rows.
Let ids := SnapshotRecord.id <$> take k sorted.

Lemma sorted_NoDup : NoDup (take k sorted ++ drop k sorted).
Proof.
  rewrite take_drop. unfold sorted. rewrite sort_by_createdAt_perm.
  by apply key_lt_NoDup.
Qed.

Lemma key_deleted_iff x : x ∈ rows -> SnapshotRecord.id x ∈ ids <-> x ∈ take k sorted.
Proof.
  intros Hx. split.
  - intros (x' & Heq & Hx')%list_elem_of_fmap.
    assert (x' ∈ rows) as Hrows.
    { rewrite <- (sort_by_createdAt_perm rows). by eapply subseteq_take. }
    by rewrite (key_lt_inj rows x x' rows_in_key_order Hx Hrows Heq).
  - intros Hin. by apply list_elem_of_fmap_2.
Qed.

(** The rows that survive [bulkDelete] of the first [k] keys of the
    sorted array are the rest of that array. *)
Lemma kept_rows : filter (fun r => SnapshotRecord.id r ∉ ids) rows ≡ₚ drop k sorted.
Proof.
  pose proof sorted_NoDup as Hnd. apply NoDup_app in Hnd as (_ & Hdisj & Hdrop).
  apply NoDup_Permutation; [apply NoDup_filter; by apply key_lt_NoDup | done |].
  intros x. rewrite list_elem_of_filter. split.
  - intros [Hkey Hx].
    assert (x ∈ take k sorted ++ drop k sorted) as Hin.
    { rewrite take_drop. unfold sorted. by rewrite sort_by_createdAt_perm. }
    apply elem_of_app in Hin as [Hin|Hin]; [|done].
    exfalso. apply Hkey. by apply key_deleted_iff.
  - intros Hx.
    assert (x ∈ rows) as Hrows.
    { rewrite <- (sort_by_createdAt_perm rows). fold sorted.
      rewrite <- (take_drop k sorted). apply elem_of_app. by right. }
    split; [|done]. intros Hkey. apply key_deleted_iff in Hkey; [|done].
    by apply (Hdisj x).
Qed.

(** A deleted row is older than every row that is kept. *)
Lemma deleted_older x y : x ∈ take k sorted -> y ∈ drop k sorted -> older x y.
Proof.
  intros Hx Hy.
  pose proof sorted_NoDup as Hnd. apply NoDup_app in Hnd as (_ & Hdisj & _).
  assert (StronglySorted not_newer (take k sorted ++ drop k sorted)) as Hs.
  { rewrite take_drop. by apply sort_by_createdAt_sorted. }
  pose proof (StronglySorted_app_1_elem_of _ _ _ _ _ Hs Hx Hy) as Hle.
  assert (SnapshotRecord.id x <> SnapshotRecord.id y) as Hne.
  { intros Heq. apply (Hdisj x Hx).
    assert (x ∈ rows) as Hxr.
    { rewrite <- (sort_by_createdAt_perm rows). by eapply subseteq_take. }
    assert (y ∈ rows) as Hyr.
    { rewrite <- (sort_by_createdAt_perm rows). fold sorted.
      rewrite <- (take_drop k sorted). apply elem_of_app. by right. }
    by rewrite (key_lt_inj rows x y rows_in_key_order Hxr Hyr Heq). }
  unfold not_newer in Hle. unfold older. lia.
Qed.
End evicted_rows.

Lemma positive_keys_truthy (keys : list Z) :
  Forall (fun k => 0 < k) keys -> filter (fun k => Boolean k) keys = keys.
Proof.
  induction 1 as [|k keys Hk _ IH]; [done|].
  rewrite filter_cons_True, IH; [done|].
  unfold Boolean. apply Is_true_true. apply negb_true_iff, Z.eqb_neq. lia.
Qed.

Lemma ring_delete d keys s :
  ring d (delete_snapshots keys s)
  = filter (fun r => SnapshotRecord.id r ∉ keys) (ring d s).
Proof.
  unfold ring, where_draftId, delete_snapshots. cbn.
  rewrite !list_filter_filter. apply list_filter_iff. intros r. tauto.
Qed.

Lemma ring_keys_positive d s :
  store_wf s -> Forall (fun r => 0 < SnapshotRecord.id r) (ring d s).
Proof.
  intros Hwf. destruct (keys_between_bounds _ _ _ Hwf) as [_ Hall].
  unfold ring, where_draftId. apply Forall_forall. intros r Hr.
  apply list_elem_of_filter in Hr as [_ Hr].
  rewrite Forall_forall in Hall. apply Hall in Hr. lia.
Qed.

Lemma ring_key_order d s : store_wf s -> StronglySorted key_lt (ring d s).
Proof.
  intros Hwf. apply key_lt_filter. by eapply keys_between_sorted.
Qed.

Lemma evict_over d limit s :
  store_wf s -> 0 <= limit -> limit < Z.of_nat (length (ring d s)) ->
  evict d limit s
  = delete_snapshots
      (SnapshotRecord.id <$> take (excess d limit s) (sort_by_createdAt (ring d s))) s.
Proof.
  intros Hwf Hlim Hover. unfold evict, excess.
  rewrite (proj2 (Z.gtb_lt _ _)) by done.
  set (n := Z.of_nat (length (ring d s)) - limit).
  unfold slice0. rewrite (proj2 (Z.ltb_ge n 0)) by lia.
  rewrite positive_keys_truthy.
  - rewrite length_fmap, length_take_le.
    + rewrite (proj2 (Z.eqb_neq _ 0)) by lia. done.
    + rewrite sort_by_createdAt_perm. lia.
  - apply Forall_fmap, Forall_take. rewrite sort_by_createdAt_perm.
    by apply ring_keys_positive.
Qed.

Lemma evict_under d limit s :
  Z.of_nat (length (ring d s)) <= limit -> evict d limit s = s.
Proof.
  intros Hle. unfold evict.
  destruct (Z.gtb_spec (Z.of_nat (length (ring d s))) limit); [lia | done].
Qed.

(** ** The transaction of flush (C3) *)

Ltac step_call fault :=
  rewrite bind_run;
  match goal with
  | |- context [call ?f fault ?s ?m] =>
      let Hhit := fresh "Hhit" in
      destruct (call_cases f fault s m) as [[Hhit ->]|[Hhit ->]]; cbn [fst snd]
  end.

(** The ring enforcement either runs to its end or is rejected on the
    way; rejected, it has deleted nothing. *)
Lemma enforce_ring_cases d limit fault s n :
  (exists n', enforce_ring d limit fault s n = Ok tt (evict d limit s) n')
  \/ (exists e n', enforce_ring d limit fault s n = Fail e s n').
Proof.
  unfold enforce_ring, evict, Dexie.snapshots_count, Dexie.snapshots_sortBy_createdAt,
    Dexie.snapshots_bulkDelete, ring.
  step_call fault; [right; eauto|].
  destruct (_ >? _); [|left; eauto].
  step_call fault; [right; eauto|].
  destruct (negb _); [|left; eauto].
  match goal with
  | |- context [call ?f fault ?s ?m] =>
      destruct (call_cases f fault s m) as [[_ ->]|[_ ->]]; cbn [fst snd]
  end; [right; eauto | left; eauto].
Qed.

Lemma enforce_ring_run d limit s n :
  exists n', enforce_ring d limit None s n = Ok tt (evict d limit s) n'.
Proof.
  unfold enforce_ring, evict, Dexie.snapshots_count, Dexie.snapshots_sortBy_createdAt,
    Dexie.snapshots_bulkDelete, ring.
  rewrite bind_run, call_run. cbn [fst snd].
  destruct (_ >? _); [|eauto].
  rewrite bind_run, call_run. cbn [fst snd].
  destruct (negb _); [|eauto].
  rewrite call_run. eauto.
Qed.

Lemma flush_transaction_cases d limit next now fault s n :
  (exists n', flush_transaction d limit next now fault s n
              = Ok tt (committed d limit next now s) n')
  \/ (exists e n', flush_transaction d limit next now fault s n = Fail e s n').
Proof.
  unfold flush_transaction, transaction, flush_writes, committed, Dexie.drafts_put,
    Dexie.snapshots_add.
  step_call fault; [right; eauto|].
  step_call fault; [right; eauto|].
  fold (snapshot_of d next now).
  destruct (enforce_ring_cases d limit fault
              (add_snapshot (snapshot_of d next now) (put_draft next s)) (S (S n)))
    as [[n' ->]|(e & n' & ->)]; [left; eauto | right; eauto].
Qed.

Lemma flush_transaction_run d limit next now s n :
  exists n', flush_transaction d limit next now None s n
             = Ok tt (committed d limit next now s) n'.
Proof.
  unfold flush_transaction, transaction, flush_writes, committed, Dexie.drafts_put,
    Dexie.snapshots_add.
  rewrite bind_run, call_run. cbn [fst snd].
  rewrite bind_run, call_run. cbn [fst snd].
  fold (snapshot_of d next now).
  destruct (enforce_ring_run d limit
              (add_snapshot (snapshot_of d next now) (put_draft next s)) (S (S n)))
    as [n' ->]. eauto.
Qed.

Lemma flush_try_cases d limit update now fault s :
  let next := flush_next d update (drafts s !! d) now in
  (exists n', flush_try d limit update now fault s 0%nat
              = Ok next (committed d limit next now s) n')
  \/ (exists e n', flush_try d limit update now fault s 0%nat = Fail e s n').
Proof.
  intros next. unfold flush_try, Dexie.drafts_get.
  step_call fault; [right; eauto|].
  rewrite bind_run. fold next.
  destruct (flush_transaction_cases d limit next now fault s 1%nat)
    as [[n' ->]|(e & n' & ->)]; [left; eauto | right; eauto].
Qed.

Lemma flush_try_run d limit update now s :
  exists n', flush_try d limit update now None s 0%nat
             = Ok (flush_next d update (drafts s !! d) now)
                  (committed d limit (flush_next d update (drafts s !! d) now) now s) n'.
Proof.
  unfold flush_try, Dexie.drafts_get.
  rewrite bind_run, call_run. cbn [fst snd]. rewrite bind_run.
  destruct (flush_transaction_run d limit (flush_next d update (drafts s !! d) now) now s 1%nat)
    as [n' ->]. eauto.
Qed.

Lemma evict_drafts d limit s : drafts (evict d limit s) = drafts s.
Proof. unfold evict. destruct (_ >? _); [|done]. by destruct (negb _). Qed.

Lemma evict_key d limit s : snapshots_key (evict d limit s) = snapshots_key s.
Proof. unfold evict. destruct (_ >? _); [|done]. by destruct (negb _). Qed.

Lemma committed_drafts d limit next now s :
  drafts (committed d limit next now s) = <[DraftRecord.id next := next]> (drafts s).
Proof. unfold committed. by rewrite evict_drafts. Qed.

Lemma committed_key d limit next now s :
  snapshots_key (committed d limit next now s) = snapshots_key s + 1.
Proof. unfold committed. by rewrite evict_key. Qed.

(** C3, amended.  The writes of [flush] (the upsert of the Draft row, the
    new Snapshot row and the eviction) run inside one transaction:
    whichever storage call is rejected, the store is left exactly as it
    was, and otherwise all of them are committed together, so that no
    Draft update is persisted without its Snapshot having been added and
    no eviction without the write it made room for.  The prior Draft row
    is read by a call of its own before the transaction is opened, and
    the transaction writes whatever next state was computed from it. *)
Theorem flush_writes_all_or_nothing (d : string) (limit : Z) (update : DraftUpdate.t)
    (now : Z) (fault : option nat) (s : Store) :
  (forall (next : DraftRecord.t) (n : nat),
     match flush_transaction d limit next now fault s n with
     | Ok _ s' _ => s' = committed d limit next now s
     | Fail _ s' _ => s' = s
     end)
  /\ match flush_try d limit update now fault s 0%nat with
     | Ok row s' _ =>
         row = flush_next d update (drafts s !! d) now
         /\ s' = committed d limit row now s
         /\ drafts s' !! d = Some row
         /\ snapshots_key s' = snapshots_key s + 1
     | Fail _ s' _ => s' = s
     end.
Proof.
  split.
  - intros next n.
    by destruct (flush_transaction_cases d limit next now fault s n)
      as [[n' ->]|(e & n' & ->)].
  - destruct (flush_try_cases d limit update now fault s) as [[n' ->]|(e & n' & ->)];
      [|done].
    rewrite committed_drafts, committed_key. cbn [flush_next DraftRecord.id].
    by rewrite lookup_insert_eq.
Qed.

(** Without the transaction around them, the same writes would leave the
    Draft row behind when a later call is rejected. *)
Example writes_outside_transaction_remain :
  let next := flush_next "current" DraftUpdate.empty
                (drafts store_two_drafts !! "current") 5000 in
  current_version "current"
    (outcome_store (flush_writes "current" 2 next 5000 (Some 2%nat) store_two_drafts 0%nat))
  = 4
  /\ current_version "current"
       (outcome_store
          (flush_transaction "current" 2 next 5000 (Some 2%nat) store_two_drafts 0%nat))
     = 3.
Proof. vm_compute. done. Qed.

(** C3, as stated, fails: the read of the prior row is not part of the
    transaction.  A timer flush carrying a rename and a forced flush of an
    empty buffer are in flight together on the sample store (version 3):
    both read version 3, both commit version 4, and the row left by the
    second one has lost the rename.  Run one after the other, in either
    order, they end at version 5 with the rename in place. *)
Lemma flush_read_outside_transaction :
  ~ flush_isolated "current" 20 edit_project_name 4000 DraftUpdate.empty 4001
      store_two_drafts
  /\ current_version "current"
       (flushes_interleaved "current" 20 edit_project_name 4000 DraftUpdate.empty 4001
          store_two_drafts) = 4
  /\ DraftRecord.projectName <$>
       drafts (flushes_interleaved "current" 20 edit_project_name 4000
                 DraftUpdate.empty 4001 store_two_drafts) !! "current"
     = Some (val "notes")
  /\ current_version "current"
       (flushes_serial "current" 20 edit_project_name 4000 DraftUpdate.empty 4001
          store_two_drafts) = 5
  /\ current_version "current"
       (flushes_serial "current" 20 DraftUpdate.empty 4001 edit_project_name 4000
          store_two_drafts) = 5.
Proof.
  split; [|vm_compute; done].
  intros [H|H]; apply (f_equal (current_version "current")) in H;
    vm_compute in H; discriminate H.
Qed.

(** ** The key invariant is kept by every operation *)

Lemma store_wf_snapshots s s' :
  snapshots s' = snapshots s -> snapshots_key s' = snapshots_key s ->
  store_wf s -> store_wf s'.
Proof. unfold store_wf. by intros -> ->. Qed.

Lemma add_snapshot_wf row s : store_wf s -> store_wf (add_snapshot row s).
Proof. unfold store_wf. cbn. by apply keys_between_snoc. Qed.

Lemma delete_snapshots_wf keys s : store_wf s -> store_wf (delete_snapshots keys s).
Proof. unfold store_wf. cbn. apply keys_between_filter. Qed.

Lemma evict_wf d limit s : store_wf s -> store_wf (evict d limit s).
Proof.
  intros Hwf. unfold evict. destruct (_ >? _); [|done].
  destruct (negb _); [|done]. by apply delete_snapshots_wf.
Qed.

Lemma committed_wf d limit next now s : store_wf s -> store_wf (committed d limit next now s).
Proof.
  intros Hwf. unfold committed. apply evict_wf, add_snapshot_wf.
  by eapply store_wf_snapshots; [| |exact Hwf].
Qed.

Lemma empty_store_wf : store_wf empty_store.
Proof. reflexivity. Qed.

(** ** Ring eviction (C6) *)

Lemma filter_all {A} (P : A -> Prop) {Pdec : forall x, Decision (P x)} (l : list A) :
  Forall P l -> filter P l = l.
Proof.
  induction 1 as [|x l Hx _ IH]; [done|]. by rewrite filter_cons_True, IH.
Qed.

(** A row of the table whose key is among the deleted keys is one of the
    first [excess] rows of the sorted ring. *)
Lemma deleted_row_in_prefix d limit s x :
  store_wf s -> x ∈ snapshots s ->
  SnapshotRecord.id x
    ∈ (SnapshotRecord.id <$> take (excess d limit s) (sort_by_createdAt (ring d s))) ->
  x ∈ take (excess d limit s) (sort_by_createdAt (ring d s)).
Proof.
  intros Hwf Hx (x' & Heq & Hx')%list_elem_of_fmap.
  assert (x' ∈ snapshots s) as Hrow.
  { apply subseteq_take in Hx'. rewrite sort_by_createdAt_perm in Hx'.
    by apply list_elem_of_filter in Hx' as [_ ?]. }
  by rewrite (key_lt_inj (snapshots s) x x'
                (keys_between_sorted _ _ _ Hwf) Hx Hrow Heq).
Qed.

Lemma prefix_in_ring d k s x :
  x ∈ take k (sort_by_createdAt (ring d s)) -> x ∈ ring d s.
Proof.
  intros Hx. apply subseteq_take in Hx. by rewrite sort_by_createdAt_perm in Hx.
Qed.

(** C6.  When the ring of a draft holds more rows than [snapshotLimit]
    (at least 0), the enforcement of lines 77-88 deletes rows of that
    draft only, every row it deletes is older than every row of the draft
    it retains (by [createdAt], the smaller key counting as older between
    equal times), and exactly [snapshotLimit] rows of the draft remain, so
    that the retained rows are the [snapshotLimit] most recently created
    ones.  The other rows of the table stay as they are, in their order. *)
Theorem ring_eviction_oldest_first (d : string) (limit : Z) (s : Store) (n : nat) :
  store_wf s ->
  0 <= limit ->
  limit < Z.of_nat (length (ring d s)) ->
  let s' := outcome_store (enforce_ring d limit None s n) in
  length (ring d s') = Z.to_nat limit
  /\ (forall x, x ∈ snapshots s -> x ∉ snapshots s' -> SnapshotRecord.draftId x = d)
  /\ (forall x y, x ∈ snapshots s -> x ∉ snapshots s' -> y ∈ ring d s' -> older x y)
  /\ snapshots s' `sublist_of` snapshots s
  /\ (forall d', d' <> d -> ring d' s' = ring d' s).
Proof.
  intros Hwf Hlim Hover s'.
  assert (s' = delete_snapshots
                 (SnapshotRecord.id <$>
                    take (excess d limit s) (sort_by_createdAt (ring d s))) s) as Hs'.
  { unfold s'. destruct (enforce_ring_run d limit s n) as [n' ->]. cbn.
    by apply evict_over. }
  pose proof (ring_key_order d s Hwf) as Hord.
  pose proof (kept_rows (ring d s) (excess d limit s) Hord) as Hkept.
  assert (forall x, x ∈ snapshots s -> x ∉ snapshots s' ->
            x ∈ take (excess d limit s) (sort_by_createdAt (ring d s))) as Hdel.
  { intros x Hx Hgone. apply (deleted_row_in_prefix d limit s x Hwf Hx).
    destruct (decide (SnapshotRecord.id x ∈
                (SnapshotRecord.id <$>
                   take (excess d limit s) (sort_by_createdAt (ring d s)))))
      as [Hin|Hout]; [done|].
    exfalso. apply Hgone. rewrite Hs'. cbn. by apply list_elem_of_filter. }
  rewrite Hs'. rewrite ring_delete. split; [|split; [|split; [|split]]].
  - rewrite Hkept, length_drop, sort_by_createdAt_perm. unfold excess. lia.
  - intros x Hx Hgone. rewrite <- Hs' in Hgone.
    pose proof (prefix_in_ring _ _ _ _ (Hdel x Hx Hgone)) as Hin.
    by apply list_elem_of_filter in Hin as [? _].
  - intros x y Hx Hgone Hy. rewrite <- Hs' in Hgone. rewrite Hkept in Hy.
    by eapply deleted_older; [exact Hord | apply Hdel | exact Hy].
  - cbn. apply sublist_filter.
  - intros d' Hne. rewrite ring_delete. apply filter_all. apply Forall_forall.
    intros r Hr Hkey.
    assert (r ∈ snapshots s) as Hrow by (by apply list_elem_of_filter in Hr as [_ ?]).
    pose proof (prefix_in_ring _ _ _ _ (deleted_row_in_prefix d limit s r Hwf Hrow Hkey))
      as Hin.
    apply list_elem_of_filter in Hin as [Hd _].
    apply list_elem_of_filter in Hr as [Hd' _]. congruence.
Qed.

(** Three snapshots of the current draft against a limit of 2. *)
Lemma ring_eviction_oldest_first_witness :
  store_wf store_over_limit
  /\ 0 <= 2
  /\ 2 < Z.of_nat (length (ring "current" store_over_limit))
  /\ length (ring "current"
               (outcome_store (enforce_ring "current" 2 None store_over_limit 0%nat)))
     = Z.to_nat 2.
Proof.
  assert (store_wf store_over_limit) as Hwf by reflexivity.
  assert (0 <= 2) as Hlim by lia.
  assert (2 < Z.of_nat (length (ring "current" store_over_limit))) as Hover
    by (vm_compute; reflexivity).
  split; [exact Hwf|]. split; [exact Hlim|]. split; [exact Hover|].
  exact (proj1 (ring_eviction_oldest_first "current" 2 store_over_limit 0%nat
                  Hwf Hlim Hover)).
Defined.

(** On the sample table the tie at t=1500 is broken by key: row 2 goes,
    rows 3 and 5 stay. *)
Example ring_eviction_tie :
  SnapshotRecord.id <$>
    ring "current" (outcome_store (enforce_ring "current" 2 None store_over_limit 0%nat))
  = [3; 5].
Proof. vm_compute. reflexivity. Qed.

(** ** The ring bound (C5, X19) *)

Lemma evict_length d limit s :
  store_wf s -> 0 <= limit ->
  Z.of_nat (length (ring d (evict d limit s)))
  = Z.min (Z.of_nat (length (ring d s))) limit.
Proof.
  intros Hwf Hlim.
  destruct (Z.le_gt_cases (Z.of_nat (length (ring d s))) limit) as [Hle|Hgt].
  - rewrite evict_under by done. lia.
  - rewrite evict_over, ring_delete by done.
    rewrite (kept_rows (ring d s) (excess d limit s) (ring_key_order d s Hwf)).
    rewrite length_drop, sort_by_createdAt_perm. unfold excess. lia.
Qed.

Lemma committed_ring_length d limit next now s :
  store_wf s -> 0 <= limit ->
  Z.of_nat (length (ring d (committed d limit next now s)))
  = Z.min (Z.of_nat (length (ring d s)) + 1) limit.
Proof.
  intros Hwf Hlim. unfold committed. rewrite evict_length; [|by apply add_snapshot_wf|done].
  unfold ring at 1, where_draftId. cbn [add_snapshot snapshots put_draft].
  rewrite filter_app, filter_cons_True by done.
  rewrite length_app. cbn. unfold ring, where_draftId. lia.
Qed.

(** The outcomes of the storage calls of [restoreFromSnapshot]. *)
Lemma restore_calls_cases d key now fault s :
  (exists e n', restore_calls d key now fault s 0%nat = Fail e s n')
  \/ (find_snapshot key s = None
      /\ exists n', restore_calls d key now fault s 0%nat = Ok None s n')
  \/ (exists snap n',
        find_snapshot key s = Some snap
        /\ restore_calls d key now fault s 0%nat
           = Ok (Some (restore_next d snap (drafts s !! d) now))
                (put_draft (restore_next d snap (drafts s !! d) now) s) n').
Proof.
  unfold restore_calls, Dexie.snapshots_get, Dexie.drafts_get, Dexie.drafts_put.
  step_call fault; [left; eauto|].
  destruct (find_snapshot key s) as [snap|] eqn:Hfind; [|right; left; eauto].
  step_call fault; [left; eauto|].
  step_call fault; [left; eauto|].
  right; right. eauto.
Qed.

(** One operation on the ring of the hook's draft. *)
Lemma apply_op_ring d limit op s :
  store_wf s -> 0 <= limit ->
  store_wf (fst (apply_op d limit op s))
  /\ Z.of_nat (length (ring d (fst (apply_op d limit op s))))
     = match op with
       | OpFlush _ _ _ =>
           if snd (apply_op d limit op s)
           then Z.min (Z.of_nat (length (ring d s)) + 1) limit
           else Z.of_nat (length (ring d s))
       | OpRestore _ _ _ => Z.of_nat (length (ring d s))
       end.
Proof.
  intros Hwf Hlim. destruct op as [update now fault|key now fault]; cbn [apply_op].
  - destruct (flush_try_cases d limit update now fault s) as [[n' ->]|(e & n' & ->)];
      cbn [fst snd]; [|done].
    split; [by apply committed_wf | by apply committed_ring_length].
  - destruct (restore_calls_cases d key now fault s)
      as [(e & n' & ->)|[(_ & n' & ->)|(snap & n' & _ & ->)]]; cbn [fst snd];
      (split; [|done]); first [exact Hwf | by eapply store_wf_snapshots; [| |exact Hwf]].
Qed.

(** Every store reached from a well-keyed one is well-keyed. *)
Lemma run_ops_wf d limit ops s :
  store_wf s -> 0 <= limit -> store_wf (run_ops d limit ops s).
Proof.
  intros Hwf Hlim. revert s Hwf.
  induction ops as [|op ops IH]; intros s Hwf; cbn [run_ops]; [done|].
  apply IH. by apply apply_op_ring.
Qed.

Lemma run_ops_ring d limit ops s :
  store_wf s -> 0 <= limit ->
  Z.of_nat (length (ring d s)) <= limit ->
  Z.of_nat (length (ring d (run_ops d limit ops s)))
  = Z.min (Z.of_nat (length (ring d s)) + Z.of_nat (flushes_done d limit ops s)) limit.
Proof.
  intros Hwf Hlim. revert s Hwf.
  induction ops as [|op ops IH]; intros s Hwf Hle; cbn [run_ops flushes_done].
  - lia.
  - destruct (apply_op_ring d limit op s Hwf Hlim) as [Hwf' Hlen].
    destruct (apply_op d limit op s) as [s' wrote] eqn:Hop. cbn [fst snd] in *.
    rewrite IH; [|done|].
    + rewrite Hlen. destruct op; [destruct wrote|]; lia.
    + rewrite Hlen. destruct op; [destruct wrote|]; lia.
Qed.

(** X19.  Starting with no snapshot of the draft and a [snapshotLimit] of
    at least 0, after any sequence of flushes and restores the number of
    stored Snapshot rows of the draft is the smaller of [snapshotLimit]
    and the number of flushes that succeeded, whatever their buffers held;
    so the count never exceeds [snapshotLimit].  Each successful flush
    leaves the store that its one transaction commits, eviction
    included. *)
Theorem ring_count_is_min (d : string) (limit : Z) (ops : list Op) (s : Store) :
  store_wf s ->
  ring d s = [] ->
  0 <= limit ->
  Z.of_nat (length (ring d (run_ops d limit ops s)))
  = Z.min (Z.of_nat (flushes_done d limit ops s)) limit
  /\ Z.of_nat (length (ring d (run_ops d limit ops s))) <= limit
  /\ (forall update now s0,
        fst (apply_op d limit (OpFlush update now None) s0)
        = committed d limit (flush_next d update (drafts s0 !! d) now) now s0).
Proof.
  intros Hwf Hempty Hlim.
  pose proof (run_ops_ring d limit ops s Hwf Hlim) as Hlen.
  rewrite Hempty in Hlen. cbn [length] in Hlen.
  split; [|split].
  - rewrite Hlen by lia. done.
  - rewrite Hlen by lia. lia.
  - intros update now s0. cbn [apply_op].
    by destruct (flush_try_run d limit update now s0) as [n' ->].
Qed.

(** The scenario of the specification, from the empty store. *)
Lemma ring_count_is_min_witness :
  store_wf empty_store
  /\ ring "current" empty_store = []
  /\ 0 <= 2
  /\ Z.of_nat (length (ring "current" (run_ops "current" 2 scenario empty_store)))
     = Z.min (Z.of_nat (flushes_done "current" 2 scenario empty_store)) 2.
Proof.
  assert (0 <= 2) as Hlim by lia.
  split; [reflexivity|]. split; [reflexivity|]. split; [exact Hlim|].
  exact (proj1 (ring_count_is_min "current" 2 scenario empty_store
                  empty_store_wf eq_refl Hlim)).
Defined.

(** C5 does not hold of the code, through the defect of C1.  With
    [snapshotLimit = 20] on the empty store, one edit is flushed by its
    timeout; the page is then hidden and goes away with nothing buffered.
    Three flushes have run, one of them with a non-empty buffer, and the
    draft has three snapshots where the claim has min(1, 20) = 1. *)
Lemma ring_counts_empty_flushes :
  let w := run "current" 1200 20 edit_then_leave (initial_world empty_store 0) in
  length (flushes w) = 3%nat
  /\ edits_flushed w = 1%nat
  /\ length (ring "current" (store w)) = 3%nat
  /\ Z.min (Z.of_nat (edits_flushed w)) 20 = 1
  /\ error (hook w) = None.
Proof. vm_compute. repeat split. Qed.

(** The scenario of the specification, run: two snapshots remain, those
    of t=1500 and t=3000; the restore brings the Draft row to version 4
    with the document of t=1500. *)
Example scenario_outcome :
  let s := run_ops "current" 2 scenario empty_store in
  (SnapshotRecord.createdAt <$> ring "current" s) = [1500; 3000]
  /\ current_version "current" s = 4
  /\ (DraftRecord.docJson <$> drafts s !! "current") = Some (val (JStr "second"))
  /\ observed_versions "current" 2 scenario empty_store = [1; 2; 3; 4].
Proof. vm_compute. done. Qed.

(** ** Versions (C4) *)

Lemma flush_next_version d update prev now :
  DraftRecord.version (flush_next d update prev now)
  = num_or (chain prev (fun p => val (DraftRecord.version p))) 0 + 1.
Proof. reflexivity. Qed.

(** An operation that writes moves the version up by exactly one; any
    other leaves it. *)
Lemma apply_op_version d limit op s :
  current_version d (fst (apply_op d limit op s))
  = current_version d s + (if snd (apply_op d limit op s) then 1 else 0).
Proof.
  destruct op as [update now fault|key now fault]; cbn [apply_op].
  - destruct (flush_try_cases d limit update now fault s) as [[n' ->]|(e & n' & ->)];
      cbn [fst snd]; [|lia].
    unfold current_version at 1. rewrite committed_drafts.
    cbn [flush_next DraftRecord.id]. rewrite lookup_insert_eq. reflexivity.
  - destruct (restore_calls_cases d key now fault s)
      as [(e & n' & ->)|[(_ & n' & ->)|(snap & n' & _ & ->)]]; cbn [fst snd]; try lia.
    unfold current_version at 1. cbn [put_draft drafts restore_next DraftRecord.id].
    rewrite lookup_insert_eq. reflexivity.
Qed.

Lemma observed_versions_from d limit ops s :
  observed_versions d limit ops s
  = (fun k => current_version d s + Z.of_nat k) <$> seq 1 (successes d limit ops s).
Proof.
  revert s. induction ops as [|op ops IH]; intros s; cbn [observed_versions successes].
  - reflexivity.
  - pose proof (apply_op_version d limit op s) as Hv.
    destruct (apply_op d limit op s) as [s' wrote]. cbn [fst snd] in Hv.
    rewrite IH, Hv. destruct wrote; cbn [app Nat.add].
    + cbn [seq]. rewrite <- (fmap_S_seq 1), fmap_cons, <- list_fmap_compose.
      f_equal. apply list_fmap_ext. intros _ k _. cbn. lia.
    + apply list_fmap_ext. intros _ k _. cbn. lia.
Qed.

(** C4, amended.  When flushes and restores run one after another, each
    settled before the next starts, then from a store with no Draft row
    for the identity the versions seen after the successful operations of
    any sequence are 1, 2, 3, ... in order, one per successful operation;
    each operation that writes raises the version by exactly 1, and one
    that does not (a rejected flush, a restore of a missing snapshot)
    leaves it. *)
Theorem versions_count_up (d : string) (limit : Z) (ops : list Op) (s : Store) :
  drafts s !! d = None ->
  observed_versions d limit ops s = Z.of_nat <$> seq 1 (successes d limit ops s)
  /\ (forall op s0,
        current_version d (fst (apply_op d limit op s0))
        = current_version d s0 + (if snd (apply_op d limit op s0) then 1 else 0)).
Proof.
  intros Hnone. split; [|intros op s0; apply apply_op_version].
  rewrite observed_versions_from. unfold current_version. rewrite Hnone. cbn [chain num_or].
  apply list_fmap_ext. intros _ k _. lia.
Qed.

(** The scenario of the specification, from the empty store. *)
Lemma versions_count_up_witness :
  drafts empty_store !! "current" = None
  /\ observed_versions "current" 2 scenario empty_store
     = Z.of_nat <$> seq 1 (successes "current" 2 scenario empty_store).
Proof.
  split; [reflexivity|].
  exact (proj1 (versions_count_up "current" 2 scenario empty_store eq_refl)).
Defined.

(** C4, as stated, fails: nothing makes a flush wait for the one before
    it.  Two flushes are in flight together on the empty store: both read
    that there is no Draft row, both transactions commit, and the versions
    seen after the two commits are 1 and 1 where the claim has 1 and 2. *)
Lemma versions_repeat_when_flushes_overlap :
  let prev := drafts empty_store !! "current" in
  flush_commits "current" 20 (edit_doc "first" 1) prev 0 empty_store = true
  /\ flush_commits "current" 20 (edit_doc "second" 2) prev 1
       (flush_write "current" 20 (edit_doc "first" 1) prev 0 empty_store) = true
  /\ versions_interleaved "current" 20 (edit_doc "first" 1) 0 (edit_doc "second" 2) 1
       empty_store = [1; 1]
  /\ versions_interleaved "current" 20 (edit_doc "first" 1) 0 (edit_doc "second" 2) 1
       empty_store <> Z.of_nat <$> seq 1 2.
Proof. vm_compute. repeat split. discriminate. Qed.

(** ** Debounce (C7) *)

Lemma spread_empty u : DraftUpdate.spread DraftUpdate.empty u = u.
Proof. destruct u as [[?|] [?|] [?|] [?|]]; reflexivity. Qed.

Lemma run_app d delayMs limit es1 es2 w :
  run d delayMs limit (es1 ++ es2) w = run d delayMs limit es2 (run d delayMs limit es1 w).
Proof. unfold run. apply fold_left_app. Qed.

Lemma run_flush_effect d limit fault w :
  store (run_flush d limit fault w)
  = outcome_store (flush_try d limit (bufferRef (hook w)) (clock w) fault (store w) 0%nat)
  /\ flushes (run_flush d limit fault w) = flushes w ++ [(clock w, bufferRef (hook w))]
  /\ bufferRef (hook (run_flush d limit fault w)) = DraftUpdate.empty
  /\ timers (run_flush d limit fault w) = timers w
  /\ clock (run_flush d limit fault w) = clock w
  /\ timer_seq (run_flush d limit fault w) = timer_seq w.
Proof.
  unfold run_flush, flush. cbn [DraftUpdate.truthy negb].
  destruct (flush_try d limit (bufferRef (hook w)) (clock w) fault (store w) 0%nat);
    cbn; done.
Qed.

Lemma clear_if_set_pending id due :
  0 < id -> clear_if_set (Some id) [(id, due)] = [].
Proof.
  intros Hid. unfold clear_if_set, Boolean.
  rewrite (proj2 (Z.eqb_neq id 0)) by lia. cbn [negb].
  unfold clearTimeout. by rewrite filter_cons_False by (cbn; tauto).
Qed.

Lemma clear_if_set_idle ref : clear_if_set ref [] = [].
Proof. destruct ref as [t|]; [|done]. cbn. by destruct (Boolean t). Qed.

(** The first edit of a burst arms the timer. *)
Lemma onChange_idle delayMs u w :
  timers w = [] -> 0 < timer_seq w ->
  armed delayMs w (onChange delayMs u w)
        (DraftUpdate.spread (bufferRef (hook w)) u) (clock w).
Proof.
  intros Hidle Hseq. exists (timer_seq w). unfold onChange. cbn.
  rewrite Hidle, clear_if_set_idle. done.
Qed.

(** A further edit replaces the pending timeout. *)
Lemma onChange_armed delayMs u w0 w b t :
  armed delayMs w0 w b t ->
  armed delayMs w0 (onChange delayMs u w) (DraftUpdate.spread b u) (clock w).
Proof.
  intros (id & Htimers & Href & Hid & Hseq & Hclock & Hbuf & Hstore & Hlog).
  exists (timer_seq w). unfold onChange. cbn.
  rewrite Htimers, Href, clear_if_set_pending by done.
  rewrite Hbuf. repeat split; try done. lia.
Qed.

(** A pause shorter than the delay lets nothing fire. *)
Lemma elapse_short d delayMs limit g fault w0 w b t :
  armed delayMs w0 w b t -> 0 <= g < Z.max 0 delayMs ->
  let w' := elapse d limit g fault w in
  timers w' = timers w /\ hook w' = hook w /\ timer_seq w' = timer_seq w
  /\ clock w' = clock w + g /\ store w' = store w /\ flushes w' = flushes w.
Proof.
  intros (id & Htimers & Href & Hid & Hseq & Hclock & Hbuf & Hstore & Hlog) Hg.
  unfold elapse. rewrite Htimers.
  rewrite filter_cons_False by (cbn; lia). rewrite filter_nil. cbn.
  repeat split; try done. lia.
Qed.

(** A pause of at least the delay fires the pending timeout, once, at the
    time it falls due. *)
Lemma elapse_fires d delayMs limit dt fault w0 w b t :
  armed delayMs w0 w b t -> Z.max 0 delayMs <= dt ->
  let due := t + Z.max 0 delayMs in
  let w' := elapse d limit dt fault w in
  flushes w' = flushes w0 ++ [(due, b)]
  /\ store w' = outcome_store (flush_try d limit b due fault (store w0) 0%nat)
  /\ bufferRef (hook w') = DraftUpdate.empty
  /\ timers w' = [].
Proof.
  intros (id & Htimers & Href & Hid & Hseq & Hclock & Hbuf & Hstore & Hlog) Hdt.
  unfold elapse. rewrite Htimers.
  rewrite filter_cons_True by (cbn; lia). rewrite filter_nil.
  cbn [fold_left]. unfold fire. rewrite Htimers.
  rewrite bool_decide_eq_true_2 by apply list_elem_of_here.
  match goal with |- context [run_flush d limit fault ?w1] =>
    destruct (run_flush_effect d limit fault w1) as (Hs & Hl & Hb & Ht & _) end.
  cbn [hook store clock timers timer_seq flushes bufferRef] in *.
  rewrite Hs, Hl, Hb, Ht.
  rewrite Hbuf, Hstore, Hlog, Hclock.
  cbn [fst snd].
  replace (Z.max t (t + Z.max 0 delayMs)) with (t + Z.max 0 delayMs) by lia.
  unfold clearTimeout. rewrite filter_cons_False by (intros H; by apply H). done.
Qed.

(** A pause shorter than the delay followed by an edit: the timeout is
    replaced before it fires. *)
Lemma pause_then_change d delayMs limit g u w0 w b t :
  armed delayMs w0 w b t -> 0 <= g < delayMs ->
  armed delayMs w0 (onChange delayMs u (elapse d limit g None w))
        (DraftUpdate.spread b u) (t + g).
Proof.
  intros Harmed Hg.
  destruct (elapse_short d delayMs limit g None w0 w b t Harmed ltac:(lia))
    as (Ht & Hh & Hseq & Hc & Hs & Hl).
  destruct Harmed as (id & Htimers & Href & Hid & Hseq' & Hclock & Hbuf & Hstore & Hlog).
  exists (id + 1). unfold onChange.
  cbn [timers hook timerRef timer_seq clock bufferRef store flushes].
  rewrite Ht, Hh, Hseq, Hc, Hs, Hl, Htimers, Href.
  rewrite clear_if_set_pending by done.
  rewrite Hseq', Hclock, Hbuf. repeat split; try done. lia.
Qed.

Lemma burst_rest d delayMs limit rest : forall w0 w b t,
  armed delayMs w0 w b t ->
  Forall (fun gu => 0 <= fst gu < delayMs) rest ->
  armed delayMs w0
    (run d delayMs limit (rest ≫= fun gu => [Elapse (fst gu) None; Change (snd gu)]) w)
    (fold_left DraftUpdate.spread (snd <$> rest) b)
    (t + burst_time rest).
Proof.
  induction rest as [|[g u] rest IH]; intros w0 w b t Harmed Hgaps.
  - cbn. replace (t + 0) with t by lia. done.
  - apply Forall_cons in Hgaps as [Hg Hgaps]. cbn [fst] in Hg.
    cbn [mbind list_bind app fst snd run fold_left step fmap list_fmap burst_time
         fold_right map].
    fold (run d delayMs limit).
    replace (t + (g + fold_right Z.add 0 (map fst rest)))
      with ((t + g) + burst_time rest) by (unfold burst_time; lia).
    apply IH; [|done]. by apply pause_then_change.
Qed.

Lemma burst_armed d delayMs limit w u0 rest :
  timers w = [] ->
  bufferRef (hook w) = DraftUpdate.empty ->
  0 < timer_seq w ->
  Forall (fun gu => 0 <= fst gu < delayMs) rest ->
  armed delayMs w (run d delayMs limit (burst u0 rest) w) (merged u0 rest)
        (clock w + burst_time rest).
Proof.
  intros Hidle Hbuf Hseq Hgaps. unfold burst, merged.
  cbn [run fold_left step]. fold (run d delayMs limit).
  apply burst_rest; [|done].
  pose proof (onChange_idle delayMs u0 w Hidle Hseq) as Harmed.
  by rewrite Hbuf in Harmed.
Qed.

(** C7, amended.  A burst of edits starts with the hook idle (no timeout
    pending, nothing buffered); every further edit comes less than
    [delayMs] after the one before.  During the burst nothing is flushed.
    After it, nothing is flushed before the quiet period of [delayMs] is
    over, and when it is over exactly one flush has run, at that moment,
    and the buffer it took is the left-to-right merge of all the updates
    of the burst.  Without a storage failure the Draft row it persists
    has, for each attribute, the value of the merge when the merge holds
    one that is neither null nor undefined, and the value of the prior row
    otherwise (a selection that is null or undefined on both sides is
    stored as null); its time is that of the flush and its version is one
    up. *)
Theorem burst_flushes_once (d : string) (delayMs limit : Z) (w : World)
    (u0 : DraftUpdate.t) (rest : list (Z * DraftUpdate.t)) :
  timers w = [] ->
  bufferRef (hook w) = DraftUpdate.empty ->
  0 < timer_seq w ->
  Forall (fun gu => 0 <= fst gu < delayMs) rest ->
  let quiet := Z.max 0 delayMs in
  let due := clock w + burst_time rest + quiet in
  let w1 := run d delayMs limit (burst u0 rest) w in
  flushes w1 = flushes w
  /\ store w1 = store w
  /\ bufferRef (hook w1) = merged u0 rest
  /\ (forall dt fault, 0 <= dt < quiet ->
        flushes (run d delayMs limit (burst u0 rest ++ [Elapse dt fault]) w) = flushes w)
  /\ (forall dt fault, quiet <= dt ->
        let w2 := run d delayMs limit (burst u0 rest ++ [Elapse dt fault]) w in
        flushes w2 = flushes w ++ [(due, merged u0 rest)]
        /\ store w2
           = outcome_store (flush_try d limit (merged u0 rest) due fault (store w) 0%nat)
        /\ (fault = None ->
            exists row,
              drafts (store w2) !! d = Some row
              /\ DraftRecord.id row = d
              /\ DraftRecord.projectName row
                 = code_take (DraftUpdate.projectName (merged u0 rest))
                     (chain (drafts (store w) !! d) DraftRecord.projectName)
              /\ DraftRecord.promptName row
                 = code_take (DraftUpdate.promptName (merged u0 rest))
                     (chain (drafts (store w) !! d) DraftRecord.promptName)
              /\ DraftRecord.docJson row
                 = code_take (DraftUpdate.docJson (merged u0 rest))
                     (chain (drafts (store w) !! d) DraftRecord.docJson)
              /\ DraftRecord.selection row
                 = code_take (DraftUpdate.selection (merged u0 rest))
                     (chain (drafts (store w) !! d) DraftRecord.selection) ?? null
              /\ DraftRecord.updatedAt row = due
              /\ DraftRecord.version row = current_version d (store w) + 1)
        /\ bufferRef (hook w2) = DraftUpdate.empty
        /\ timers w2 = []).
Proof.
  intros Hidle Hbuf Hseq Hgaps quiet due w1.
  pose proof (burst_armed d delayMs limit w u0 rest Hidle Hbuf Hseq Hgaps) as Harmed.
  fold w1 in Harmed.
  assert (forall dt fault,
            run d delayMs limit (burst u0 rest ++ [Elapse dt fault]) w
            = elapse d limit dt fault w1) as Hrun.
  { intros dt fault. by rewrite run_app. }
  split; [|split; [|split; [|split]]].
  - by destruct Harmed as (id & _ & _ & _ & _ & _ & _ & _ & Hlog).
  - by destruct Harmed as (id & _ & _ & _ & _ & _ & _ & Hstore & _).
  - by destruct Harmed as (id & _ & _ & _ & _ & _ & Hb & _ & _).
  - intros dt fault Hdt. rewrite Hrun.
    destruct (elapse_short d delayMs limit dt fault w w1 _ _ Harmed Hdt)
      as (_ & _ & _ & _ & _ & ->).
    by destruct Harmed as (id & _ & _ & _ & _ & _ & _ & _ & Hlog).
  - intros dt fault Hdt w2. unfold w2. rewrite Hrun.
    destruct (elapse_fires d delayMs limit dt fault w w1 _ _ Harmed Hdt)
      as (Hlog & Hstore & Hb & Ht).
    split; [exact Hlog|]. split; [exact Hstore|]. split; [|done].
    intros ->. rewrite Hstore.
    destruct (flush_try_run d limit (merged u0 rest) due (store w)) as [n' Hok].
    unfold due, quiet in Hok. rewrite Hok. cbn [outcome_store].
    rewrite committed_drafts. cbn [flush_next DraftRecord.id].
    eexists. split; [by rewrite lookup_insert_eq|].
    cbn [flush_next DraftRecord.id DraftRecord.projectName DraftRecord.promptName
         DraftRecord.docJson DraftRecord.selection DraftRecord.updatedAt
         DraftRecord.version].
    rewrite !coalesce_code_take. by repeat split.
Qed.

(** Three edits at t=0, t=300 and t=1299 with a delay of 1000 ms: one
    flush, at t=2299. *)
Lemma burst_flushes_once_witness :
  timers (initial_world empty_store 0) = []
  /\ bufferRef (hook (initial_world empty_store 0)) = DraftUpdate.empty
  /\ 0 < timer_seq (initial_world empty_store 0)
  /\ Forall (fun gu => 0 <= fst gu < 1000) sample_burst
  /\ flushes (run "current" 1000 20
                (burst (edit_doc "hello" 5) sample_burst ++ [Elapse 1000 None])
                (initial_world empty_store 0))
     = [(2299, merged (edit_doc "hello" 5) sample_burst)].
Proof.
  assert (Forall (fun gu : Z * DraftUpdate.t => 0 <= fst gu < 1000) sample_burst) as Hgaps.
  { unfold sample_burst. repeat constructor; cbn; lia. }
  assert (0 < timer_seq (initial_world empty_store 0)) as Hseq by (cbn; lia).
  split; [reflexivity|]. split; [reflexivity|]. split; [exact Hseq|]. split; [exact Hgaps|].
  pose proof (burst_flushes_once "current" 1000 20 (initial_world empty_store 0)
                (edit_doc "hello" 5) sample_burst eq_refl eq_refl Hseq Hgaps) as H.
  cbv zeta in H. destruct H as (_ & _ & _ & _ & Hfire).
  destruct (Hfire 1000 None ltac:(cbn; lia)) as (Hlog & _).
  exact Hlog.
Defined.

Example sample_burst_merged :
  merged (edit_doc "hello" 5) sample_burst
  = {| DraftUpdate.projectName := Some (val "renamed");
       DraftUpdate.promptName := None;
       DraftUpdate.docJson := Some (val (JStr "hello world"));
       DraftUpdate.selection := Some (val {| from := 11; to := 11 |}) |}.
Proof. reflexivity. Qed.

(** C7, as stated, fails in "its persisted content equals the merge".
    The Draft row of the sample store has the selection [{from: 3, to:
    3}]; the editor reports the selection [{from: 1, to: 2}] and, 100 ms
    later, no selection.  One flush runs, on the merge, whose selection
    is null; the row it persists keeps the selection of the prior row. *)
Lemma burst_null_selection_not_persisted :
  let u0 := select (val {| from := 1; to := 2 |}) in
  let rest := [(100, select null)] in
  let w := run "current" 1000 20 (burst u0 rest ++ [Elapse 1000 None])
             (initial_world store_two_drafts 4000) in
  flushes w = [(5100, merged u0 rest)]
  /\ DraftUpdate.selection (merged u0 rest) = Some null
  /\ (DraftRecord.selection <$> drafts (store w) !! "current")
     = Some (val {| from := 3; to := 3 |})
  /\ (DraftRecord.selection <$> drafts (store w) !! "current")
     <> Some (read (DraftUpdate.selection (merged u0 rest))).
Proof. vm_compute. repeat split. discriminate. Qed.

(** * Further properties of the hook and its callers *)

(** ** What a flush leaves in the hook *)

(** X1.  However a flush ends, the buffer it took is gone and [saving] is
    false again.  When a storage call was rejected, the error is set, the
    store and the draft the hook exposes are as before, and the edits of
    the buffer are in neither.  Otherwise the error is cleared and the hook
    exposes the row that the transaction committed. *)
Theorem flush_takes_the_buffer (d : string) (limit now : Z) (fault : option nat)
    (h : Hook) (s : Store) :
  let '(h', s') := flush d limit now fault (h, s) in
  bufferRef h' = DraftUpdate.empty
  /\ saving h' = false
  /\ timerRef h' = timerRef h
  /\ match error h' with
     | Some _ => s' = s /\ draft h' = draft h
     | None =>
         let next := flush_next d (bufferRef h) (drafts s !! d) now in
         draft h' = Some next
         /\ s' = committed d limit next now s
         /\ drafts s' !! d = Some next
     end.
Proof.
  unfold flush. cbn [DraftUpdate.truthy negb].
  destruct (flush_try_cases d limit (bufferRef h) now fault s) as [[n' ->]|(e & n' & ->)];
    cbn; [|done].
  repeat split. rewrite committed_drafts. cbn [flush_next DraftRecord.id].
  by rewrite lookup_insert_eq.
Qed.

(** ** What a restore leaves in the hook *)


(** ** Counters of the store *)

Lemma apply_op_key d limit op s :
  snapshots_key (fst (apply_op d limit op s))
  = snapshots_key s
    + match op with
      | OpFlush _ _ _ => if snd (apply_op d limit op s) then 1 else 0
      | OpRestore _ _ _ => 0
      end.
Proof.
  destruct op as [update now fault|key now fault]; cbn [apply_op].
  - destruct (flush_try_cases d limit update now fault s) as [[n' ->]|(e & n' & ->)];
      cbn [fst snd]; [|lia].
    by rewrite committed_key.
  - destruct (restore_calls_cases d key now fault s)
      as [(e & n' & ->)|[(_ & n' & ->)|(snap & n' & _ & ->)]]; cbn; lia.
Qed.

(** X3.  The key generator of the snapshot table moves by one for each flush
    that commits and not otherwise: a rejected flush gives its key back, a
    restore takes none, and the key of an evicted snapshot is not handed
    out again. *)
Theorem snapshot_keys_count_flushes (d : string) (limit : Z) (ops : list Op) (s : Store) :
  snapshots_key (run_ops d limit ops s)
  = snapshots_key s + Z.of_nat (flushes_done d limit ops s).
Proof.
  revert s. induction ops as [|op ops IH]; intros s; cbn [run_ops flushes_done].
  - lia.
  - pose proof (apply_op_key d limit op s) as Hk.
    destruct (apply_op d limit op s) as [s' wrote]. cbn [fst snd] in *.
    rewrite IH, Hk. destruct op; [destruct wrote|]; lia.
Qed.

Lemma successes_le_length d limit ops : forall s,
  (successes d limit ops s <= length ops)%nat.
Proof.
  induction ops as [|op ops IH]; intros s; cbn [successes length]; [lia|].
  destruct (apply_op d limit op s) as [s' wrote]. specialize (IH s').
  destruct wrote; lia.
Qed.

(** X4.  The versions of the code are numbers, on which [+ 1] is exact up
    to 2^53.  From a store whose Draft version is not negative and far
    enough below 2^53 for the operations to come, after any sequence of
    flushes and restores run one after another the version of the Draft
    row is the version before plus the number of operations that wrote: it
    never goes down, never skips, and stays within that range. *)
Theorem version_counts_writes (d : string) (limit : Z) (ops : list Op) (s : Store) :
  0 <= current_version d s ->
  current_version d s + Z.of_nat (length ops) <= 2 ^ 53 ->
  current_version d (run_ops d limit ops s)
  = current_version d s + Z.of_nat (successes d limit ops s)
  /\ current_version d s <= current_version d (run_ops d limit ops s) <= 2 ^ 53.
Proof.
  intros Hlow Hhigh.
  assert (current_version d (run_ops d limit ops s)
          = current_version d s + Z.of_nat (successes d limit ops s)) as Heq.
  { clear Hlow Hhigh. revert s.
    induction ops as [|op ops IH]; intros s; cbn [run_ops successes].
    - lia.
    - pose proof (apply_op_version d limit op s) as Hv.
      destruct (apply_op d limit op s) as [s' wrote]. cbn [fst snd] in *.
      rewrite IH, Hv. destruct wrote; lia. }
  split; [exact Heq|]. rewrite Heq.
  pose proof (successes_le_length d limit ops s). lia.
Qed.

(** The scenario of the specification, from the empty store. *)
Lemma version_counts_writes_witness :
  0 <= current_version "current" empty_store
  /\ current_version "current" empty_store + Z.of_nat (length scenario) <= 2 ^ 53
  /\ current_version "current" (run_ops "current" 2 scenario empty_store)
     = current_version "current" empty_store
       + Z.of_nat (successes "current" 2 scenario empty_store).
Proof.
  assert (0 <= current_version "current" empty_store) as Hlow by (vm_compute; discriminate).
  assert (current_version "current" empty_store + Z.of_nat (length scenario) <= 2 ^ 53)
    as Hhigh by (vm_compute; discriminate).
  split; [exact Hlow|]. split; [exact Hhigh|].
  exact (proj1 (version_counts_writes "current" 2 scenario empty_store Hlow Hhigh)).
Defined.

(** ** The buffer as a monoid *)

Lemma spread_key_assoc {A} (a b c : prop A) :
  spread_key (spread_key a b) c = spread_key a (spread_key b c).
Proof. by destruct c, b. Qed.

(** X5.  Merging updates into the buffer is associative with [{}] as unit on
    both sides: what a burst leaves in the buffer does not depend on how
    its updates were grouped, and an empty update changes nothing. *)
Theorem spread_monoid (a b c : DraftUpdate.t) :
  DraftUpdate.spread (DraftUpdate.spread a b) c
  = DraftUpdate.spread a (DraftUpdate.spread b c)
  /\ DraftUpdate.spread DraftUpdate.empty a = a
  /\ DraftUpdate.spread a DraftUpdate.empty = a.
Proof.
  split; [|split].
  - unfold DraftUpdate.spread. cbn. by rewrite !spread_key_assoc.
  - apply spread_empty.
  - by destruct a.
Qed.

(** ** Shape of an eviction *)

Lemma slice0_subseteq {A} (n : Z) (l : list A) : slice0 n l ⊆ l.
Proof. unfold slice0. destruct (n <? 0); apply subseteq_take. Qed.

Lemma delete_nothing s : delete_snapshots [] s = s.
Proof.
  destruct s as [ds rows k]. unfold delete_snapshots. cbn. f_equal.
  apply filter_all, Forall_forall. intros r _. apply not_elem_of_nil.
Qed.

(** An eviction is a [bulkDelete] of keys of the ring it enforces. *)
Lemma evict_shape d limit s :
  exists keys,
    evict d limit s = delete_snapshots keys s
    /\ forall k, k ∈ keys -> exists x, x ∈ ring d s /\ SnapshotRecord.id x = k.
Proof.
  unfold evict. destruct (_ >? _).
  - match goal with |- context [negb ?b] => destruct (negb b) end.
    + eexists. split; [reflexivity|]. intros k Hk.
      apply list_elem_of_filter in Hk as [_ Hk].
      apply list_elem_of_fmap in Hk as (x & -> & Hx).
      exists x. split; [|done].
      apply slice0_subseteq in Hx. by rewrite sort_by_createdAt_perm in Hx.
    + exists []. split; [by rewrite delete_nothing|]. intros k Hk.
      by apply elem_of_nil in Hk.
  - exists []. split; [by rewrite delete_nothing|]. intros k Hk.
    by apply elem_of_nil in Hk.
Qed.

Lemma evict_sublist d limit s : snapshots (evict d limit s) `sublist_of` snapshots s.
Proof.
  destruct (evict_shape d limit s) as (keys & -> & _). cbn. apply sublist_filter.
Qed.

Lemma evict_other_ring d d' limit s :
  store_wf s -> d' <> d -> ring d' (evict d limit s) = ring d' s.
Proof.
  intros Hwf Hne. destruct (evict_shape d limit s) as (keys & -> & Hkeys).
  rewrite ring_delete. apply filter_all, Forall_forall. intros r Hr Hk.
  destruct (Hkeys _ Hk) as (x & Hx & Heq).
  apply list_elem_of_filter in Hx as [Hxd Hx].
  apply list_elem_of_filter in Hr as [Hrd Hr].
  assert (x = r) as ->
    by (by apply (key_lt_inj (snapshots s) x r (keys_between_sorted _ _ _ Hwf))).
  congruence.
Qed.

Lemma ring_add_own d row s :
  new_draftId row = d ->
  ring d (add_snapshot row s) = ring d s ++ [stored (snapshots_key s) row].
Proof.
  intros Hd. unfold ring, where_draftId. cbn [add_snapshot snapshots].
  by rewrite filter_app, filter_cons_True.
Qed.

Lemma ring_add_other d row s :
  new_draftId row <> d -> ring d (add_snapshot row s) = ring d s.
Proof.
  intros Hd. unfold ring, where_draftId. cbn [add_snapshot snapshots].
  rewrite filter_app, filter_cons_False by done. by rewrite filter_nil, app_nil_r.
Qed.

(** ** Flushes of one draft leave the other drafts alone *)

(** X6.  A flush of the hook's draft, whether it commits or is rejected,
    changes neither the Draft row nor the snapshots of any other draft:
    the eviction deletes by key, and the keys it collects are those of
    rows of its own draft. *)
Theorem flush_leaves_other_drafts (d d' : string) (limit : Z) (update : DraftUpdate.t)
    (now : Z) (fault : option nat) (s : Store) :
  store_wf s ->
  d' <> d ->
  let s' := outcome_store (flush_try d limit update now fault s 0%nat) in
  drafts s' !! d' = drafts s !! d' /\ ring d' s' = ring d' s.
Proof.
  intros Hwf Hne s'. unfold s'.
  destruct (flush_try_cases d limit update now fault s) as [[n' ->]|(e & n' & ->)];
    cbn [outcome_store]; [|done].
  split.
  - rewrite committed_drafts. cbn [flush_next DraftRecord.id].
    by rewrite lookup_insert_ne.
  - unfold committed. rewrite evict_other_ring; [|apply add_snapshot_wf|done].
    + by rewrite ring_add_other.
    + by eapply store_wf_snapshots; [| |exact Hwf].
Qed.

Lemma flush_leaves_other_drafts_witness :
  store_wf store_two_drafts
  /\ "other" <> "current"
  /\ ring "other"
       (outcome_store
          (flush_try "current" 1 (edit_doc "fourth" 4) 5000 None store_two_drafts 0%nat))
     = [snapshot_foreign].
Proof.
  assert (store_wf store_two_drafts) as Hwf by reflexivity.
  assert ("other" <> "current") as Hne by discriminate.
  split; [exact Hwf|]. split; [exact Hne|].
  exact (proj2 (flush_leaves_other_drafts "current" "other" 1 (edit_doc "fourth" 4) 5000
                  None store_two_drafts Hwf Hne)).
Defined.

(** ** Selections are never stored undefined *)

Lemma coalesce_null_defined {A} (x : js A) : defined (x ?? null) = true.
Proof. by destruct x. Qed.

Lemma Forall_of_sublist {A} (P : A -> Prop) (l k : list A) :
  l `sublist_of` k -> Forall P k -> Forall P l.
Proof.
  intros Hsub Hall. apply Forall_forall. intros x Hx.
  rewrite Forall_forall in Hall. apply Hall. by eapply sublist_subseteq.
Qed.

Lemma apply_op_selections d limit op s :
  selections_defined d s -> selections_defined d (fst (apply_op d limit op s)).
Proof.
  intros [Hsnaps Hrow].
  destruct op as [update now fault|key now fault]; cbn [apply_op].
  - destruct (flush_try_cases d limit update now fault s) as [[n' ->]|(e & n' & ->)];
      cbn [fst]; [|done].
    split.
    + unfold committed. eapply Forall_of_sublist; [apply evict_sublist|].
      cbn [add_snapshot snapshots put_draft]. apply Forall_app. split; [done|].
      constructor; [|constructor]. cbn. apply coalesce_null_defined.
    + rewrite committed_drafts. cbn [flush_next DraftRecord.id].
      rewrite lookup_insert_eq. cbn. apply coalesce_null_defined.
  - destruct (restore_calls_cases d key now fault s)
      as [(e & n' & ->)|[(_ & n' & ->)|(snap & n' & _ & ->)]]; cbn [fst]; try done.
    split; [done|]. cbn [put_draft drafts restore_next DraftRecord.id].
    rewrite lookup_insert_eq. cbn. apply coalesce_null_defined.
Qed.

(** X7.  Flush and restore store selections as an object or as null, never as
    undefined: if that holds of the snapshots and of the Draft row of the
    hook before a sequence of operations, it holds after it.  So the
    [?? null] that restore applies to the selection of a snapshot changes
    nothing on a snapshot that a flush wrote. *)
Theorem selections_stay_defined (d : string) (limit : Z) (ops : list Op) (s : Store) :
  selections_defined d s -> selections_defined d (run_ops d limit ops s).
Proof.
  revert s. induction ops as [|op ops IH]; intros s Hs; cbn [run_ops]; [done|].
  by apply IH, apply_op_selections.
Qed.

Lemma selections_stay_defined_witness :
  selections_defined "current" empty_store
  /\ selections_defined "current" (run_ops "current" 2 scenario empty_store).
Proof.
  assert (selections_defined "current" empty_store) as H0.
  { split; [constructor | exact I]. }
  split; [exact H0|].
  exact (selections_stay_defined "current" 2 scenario empty_store H0).
Defined.

(** ** Enforcing the ring twice *)

(** X8.  The ring enforcement is idempotent: run again on the store it left,
    it deletes nothing more. *)
Theorem enforce_ring_idempotent (d : string) (limit : Z) (s : Store) (n m : nat) :
  store_wf s ->
  0 <= limit ->
  let s' := outcome_store (enforce_ring d limit None s n) in
  outcome_store (enforce_ring d limit None s' m) = s'.
Proof.
  intros Hwf Hlim s'. unfold s'.
  destruct (enforce_ring_run d limit s n) as [n' ->]. cbn [outcome_store].
  destruct (enforce_ring_run d limit (evict d limit s) m) as [m' ->]. cbn [outcome_store].
  apply evict_under. rewrite evict_length by done. lia.
Qed.

Lemma enforce_ring_idempotent_witness :
  store_wf store_over_limit
  /\ 0 <= 2
  /\ outcome_store
       (enforce_ring "current" 2 None
          (outcome_store (enforce_ring "current" 2 None store_over_limit 0%nat)) 0%nat)
     = outcome_store (enforce_ring "current" 2 None store_over_limit 0%nat).
Proof.
  assert (store_wf store_over_limit) as Hwf by reflexivity.
  assert (0 <= 2) as Hlim by lia.
  split; [exact Hwf|]. split; [exact Hlim|].
  exact (enforce_ring_idempotent "current" 2 store_over_limit 0%nat 0%nat Hwf Hlim).
Defined.

(** ** The ring under a clock that does not run backwards *)

Lemma sort_by_createdAt_on_clock l :
  StronglySorted
    (fun a b => SnapshotRecord.createdAt a <= SnapshotRecord.createdAt b) l ->
  sort_by_createdAt l = l.
Proof.
  induction 1 as [|x l Hs IH Hall]; [done|].
  change (sort_by_createdAt (x :: l)) with (insert_by_createdAt x (sort_by_createdAt l)).
  rewrite IH. destruct l as [|y l]; [done|].
  apply Forall_cons in Hall as [Hxy _]. cbn.
  by rewrite (proj2 (Z.leb_le _ _) Hxy).
Qed.

Lemma filter_none {A} (P : A -> Prop) {Pdec : forall x, Decision (P x)} (l : list A) :
  Forall (fun x => ~ P x) l -> filter P l = [].
Proof.
  induction 1 as [|x l Hx _ IH]; [done|]. by rewrite filter_cons_False, IH.
Qed.

(** Deleting the keys of the first [k] rows of a table in key order
    leaves the rows after them. *)
Lemma kept_prefix rows k :
  StronglySorted key_lt rows ->
  filter (fun r => SnapshotRecord.id r ∉ (SnapshotRecord.id <$> take k rows)) rows
  = drop k rows.
Proof.
  intros Hord.
  pose proof (key_lt_NoDup rows Hord) as Hnd.
  rewrite <- (take_drop k rows) in Hnd. apply NoDup_app in Hnd as (_ & Hdisj & _).
  set (P := fun r => SnapshotRecord.id r ∉ (SnapshotRecord.id <$> take k rows)).
  rewrite <- (take_drop k rows) at 1. rewrite filter_app.
  rewrite filter_none, filter_all; [done| |]; unfold P.
  - apply Forall_forall. intros y Hy (x & Heq & Hx)%list_elem_of_fmap.
    assert (x = y) as ->.
    { apply (key_lt_inj rows x y Hord); [by eapply subseteq_take| |done].
      rewrite <- (take_drop k rows). apply elem_of_app. by right. }
    by apply (Hdisj y).
  - apply Forall_forall. intros x Hx Hout. apply Hout. by apply list_elem_of_fmap_2.
Qed.

Lemma ring_put_draft d row s : ring d (put_draft row s) = ring d s.
Proof. reflexivity. Qed.

(** X9.  When the snapshots of the draft follow the clock and the flush is not
    earlier than any of them, the ring is a queue: the flush appends its
    snapshot and the eviction drops rows from the front, oldest first,
    until [snapshotLimit] are left; the ring still follows the clock
    afterwards. *)
Theorem flush_ring_is_a_queue (d : string) (limit : Z) (update : DraftUpdate.t)
    (now : Z) (s : Store) :
  store_wf s ->
  0 <= limit ->
  on_clock now (ring d s) ->
  let next := flush_next d update (drafts s !! d) now in
  let new := stored (snapshots_key s) (snapshot_of d next now) in
  let s' := outcome_store (flush_try d limit update now None s 0%nat) in
  ring d s'
  = drop (Z.to_nat (Z.of_nat (length (ring d s)) + 1 - limit)) (ring d s ++ [new])
  /\ on_clock now (ring d s').
Proof.
  intros Hwf Hlim [Hsorted Hpast] next new s'.
  set (s1 := add_snapshot (snapshot_of d next now) (put_draft next s)).
  assert (store_wf s1) as Hwf1.
  { apply add_snapshot_wf. by eapply store_wf_snapshots; [| |exact Hwf]. }
  assert (ring d s1 = ring d s ++ [new]) as Hring1.
  { unfold s1. by rewrite ring_add_own, ring_put_draft. }
  assert (on_clock now (ring d s1)) as [Hsorted1 Hpast1].
  { rewrite Hring1. split.
    - apply StronglySorted_app. split; [|split; [done|repeat constructor]].
      intros x y Hx ->%list_elem_of_singleton. rewrite Forall_forall in Hpast.
      by apply Hpast.
    - apply Forall_app. split; [done|]. repeat constructor. cbn. lia. }
  assert (ring d s' = drop (Z.to_nat (Z.of_nat (length (ring d s1)) - limit)) (ring d s1))
    as Hs'.
  { unfold s'. destruct (flush_try_run d limit update now s) as [n' ->].
    cbn [outcome_store]. unfold committed. fold next. fold s1.
    destruct (Z.le_gt_cases (Z.of_nat (length (ring d s1))) limit) as [Hle|Hgt].
    - rewrite evict_under by done.
      by replace (Z.to_nat (Z.of_nat (length (ring d s1)) - limit)) with 0%nat by lia.
    - rewrite evict_over, ring_delete by done. unfold excess.
      rewrite sort_by_createdAt_on_clock by done.
      apply kept_prefix. by apply ring_key_order. }
  split.
  - rewrite Hs', Hring1, length_app. cbn [length]. do 2 f_equal. lia.
  - rewrite Hs'. split.
    + rewrite <- (take_drop (Z.to_nat (Z.of_nat (length (ring d s1)) - limit)) (ring d s1))
        in Hsorted1.
      by apply StronglySorted_app in Hsorted1 as (_ & _ & ?).
    + by apply Forall_drop.
Qed.

Lemma flush_ring_is_a_queue_witness :
  store_wf store_two_drafts
  /\ 0 <= 2
  /\ on_clock 5000 (ring "current" store_two_drafts)
  /\ SnapshotRecord.createdAt <$>
       ring "current"
         (outcome_store
            (flush_try "current" 2 (edit_doc "fourth" 4) 5000 None store_two_drafts 0%nat))
     = [3000; 5000].
Proof.
  assert (store_wf store_two_drafts) as Hwf by reflexivity.
  assert (0 <= 2) as Hlim by lia.
  assert (on_clock 5000 (ring "current" store_two_drafts)) as Hclock.
  { split; repeat constructor; cbn; lia. }
  split; [exact Hwf|]. split; [exact Hlim|]. split; [exact Hclock|].
  rewrite (proj1 (flush_ring_is_a_queue "current" 2 (edit_doc "fourth" 4) 5000
                    store_two_drafts Hwf Hlim Hclock)).
  reflexivity.
Defined.

(** ** The snapshot a flush has just written *)

Lemma find_snapshot_member s x :
  store_wf s -> x ∈ snapshots s -> find_snapshot (SnapshotRecord.id x) s = Some x.
Proof.
  intros Hwf Hx. unfold find_snapshot.
  destruct (List.find _ (snapshots s)) as [y|] eqn:Hfind.
  - apply find_some in Hfind as [Hy Heq]. apply bool_decide_eq_true in Heq.
    apply list_elem_of_In in Hy.
    by rewrite (key_lt_inj (snapshots s) y x (keys_between_sorted _ _ _ Hwf) Hy Hx Heq).
  - apply list_elem_of_In in Hx. apply (find_none _ _ Hfind x) in Hx.
    by apply bool_decide_eq_false in Hx.
Qed.

(** With room for at least one snapshot and a clock that is not behind
    the snapshots of the draft, the row that the flush adds survives the
    eviction of the same transaction. *)
Lemma new_snapshot_kept d limit next now s :
  store_wf s -> 1 <= limit ->
  Forall (fun r => SnapshotRecord.createdAt r <= now) (ring d s) ->
  stored (snapshots_key s) (snapshot_of d next now)
    ∈ ring d (committed d limit next now s).
Proof.
  intros Hwf Hlim Hpast.
  set (new := stored (snapshots_key s) (snapshot_of d next now)).
  set (s1 := add_snapshot (snapshot_of d next now) (put_draft next s)).
  assert (store_wf s1) as Hwf1.
  { apply add_snapshot_wf. by eapply store_wf_snapshots; [| |exact Hwf]. }
  assert (ring d s1 = ring d s ++ [new]) as Hring1.
  { unfold s1. by rewrite ring_add_own, ring_put_draft. }
  assert (new ∈ ring d s1) as Hnew.
  { rewrite Hring1. apply elem_of_app. right. by apply list_elem_of_singleton. }
  unfold committed. fold s1.
  destruct (Z.le_gt_cases (Z.of_nat (length (ring d s1))) limit) as [Hle|Hgt].
  { by rewrite evict_under. }
  rewrite evict_over, ring_delete by (done || lia).
  pose proof (ring_key_order d s1 Hwf1) as Hord.
  rewrite (kept_rows (ring d s1) (excess d limit s1) Hord).
  set (k := excess d limit s1). set (sorted := sort_by_createdAt (ring d s1)).
  assert (new ∈ take k sorted ++ drop k sorted) as Hin.
  { rewrite take_drop. unfold sorted. by rewrite sort_by_createdAt_perm. }
  apply elem_of_app in Hin as [Hdel|Hkept]; [exfalso|done].
  assert (length (drop k sorted) = Z.to_nat limit) as Hlen.
  { rewrite length_drop. unfold sorted, k, excess. rewrite sort_by_createdAt_perm. lia. }
  destruct (drop k sorted) as [|y rest] eqn:Hdrop; [cbn in Hlen; lia|].
  assert (y ∈ drop k sorted) as Hy by (rewrite Hdrop; apply list_elem_of_here).
  pose proof (deleted_older (ring d s1) k Hord new y Hdel Hy) as Hold.
  assert (y ∈ ring d s1) as Hy1.
  { rewrite <- (sort_by_createdAt_perm (ring d s1)). fold sorted.
    rewrite <- (take_drop k sorted). apply elem_of_app. by right. }
  rewrite Hring1 in Hy1. apply elem_of_app in Hy1 as [Hy0| ->%list_elem_of_singleton].
  - rewrite Forall_forall in Hpast. pose proof (Hpast y Hy0) as Hpy.
    destruct (keys_between_bounds _ _ _ Hwf) as [_ Hkeys].
    rewrite Forall_forall in Hkeys.
    apply list_elem_of_filter in Hy0 as [_ Hy0]. apply Hkeys in Hy0.
    unfold older, new in Hold. cbn in Hold. lia.
  - unfold older in Hold. lia.
Qed.

Lemma defined_coalesce_null {A} (x : js A) : defined x = true -> x ?? null = x.
Proof. by destruct x. Qed.

Lemma coalesce_null_idem {A} (x : js A) : x ?? null ?? null = x ?? null.
Proof. by destruct x. Qed.

(** X10.  With room for at least one snapshot and a clock that is not behind
    the snapshots of the draft, a flush that commits keeps the snapshot it
    has just written: the row is in the ring, it is the one found under
    the key the flush was given, and it holds the document and the
    selection of the Draft row as written. *)
Theorem flush_keeps_its_snapshot (d : string) (limit : Z) (update : DraftUpdate.t)
    (now : Z) (s : Store) :
  store_wf s ->
  1 <= limit ->
  Forall (fun r => SnapshotRecord.createdAt r <= now) (ring d s) ->
  let next := flush_next d update (drafts s !! d) now in
  let new := stored (snapshots_key s) (snapshot_of d next now) in
  let s' := outcome_store (flush_try d limit update now None s 0%nat) in
  new ∈ ring d s'
  /\ find_snapshot (snapshots_key s) s' = Some new
  /\ SnapshotRecord.docJson new = DraftRecord.docJson next
  /\ SnapshotRecord.selection new = DraftRecord.selection next
  /\ SnapshotRecord.createdAt new = DraftRecord.updatedAt next.
Proof.
  intros Hwf Hlim Hpast next new s'.
  assert (new ∈ ring d s') as Hin.
  { unfold s'. destruct (flush_try_run d limit update now s) as [n' ->].
    by apply new_snapshot_kept. }
  split; [done|]. split; [|split; [done|split; [|done]]].
  - apply list_elem_of_filter in Hin as [_ Hin].
    apply (find_snapshot_member s' new) in Hin; [done|].
    unfold s'. destruct (flush_try_run d limit update now s) as [n' ->].
    by apply committed_wf.
  - cbn. apply defined_coalesce_null, coalesce_null_defined.
Qed.

Lemma flush_keeps_its_snapshot_witness :
  store_wf store_two_drafts
  /\ 1 <= 2
  /\ Forall (fun r => SnapshotRecord.createdAt r <= 5000) (ring "current" store_two_drafts)
  /\ SnapshotRecord.docJson <$>
       find_snapshot 5
         (outcome_store
            (flush_try "current" 2 (edit_doc "fourth" 4) 5000 None store_two_drafts 0%nat))
     = Some (val (JStr "fourth")).
Proof.
  assert (store_wf store_two_drafts) as Hwf by reflexivity.
  assert (1 <= 2) as Hlim by lia.
  assert (Forall (fun r => SnapshotRecord.createdAt r <= 5000)
            (ring "current" store_two_drafts)) as Hpast.
  { repeat constructor; cbn; lia. }
  split; [exact Hwf|]. split; [exact Hlim|]. split; [exact Hpast|].
  destruct (flush_keeps_its_snapshot "current" 2 (edit_doc "fourth" 4) 5000
              store_two_drafts Hwf Hlim Hpast) as (_ & Hfind & _).
  cbn [snapshots_key store_two_drafts] in Hfind. rewrite Hfind. reflexivity.
Defined.

(** The clock matters: a flush stamped earlier than the snapshots already
    in a full ring evicts the snapshot it has just added. *)
Example flush_behind_the_clock_evicts_its_snapshot :
  SnapshotRecord.id <$>
    ring "current"
      (outcome_store
         (flush_try "current" 2 (edit_doc "late" 4) 1000 None store_two_drafts 0%nat))
  = [2; 3].
Proof. vm_compute. reflexivity. Qed.

(** ** Restoring the snapshot just written *)

(** X11.  Under the same conditions, restoring the snapshot that a flush has
    just written leaves the Draft row as the flush wrote it, names,
    document and selection, but for the version, which goes up by one
    more, and the time of the update. *)
Theorem restore_after_flush_is_identity (d : string) (limit : Z) (update : DraftUpdate.t)
    (now later : Z) (h : Hook) (s : Store) :
  store_wf s ->
  1 <= limit ->
  Forall (fun r => SnapshotRecord.createdAt r <= now) (ring d s) ->
  let written := flush_next d update (drafts s !! d) now in
  let s1 := outcome_store (flush_try d limit update now None s 0%nat) in
  let '(h2, s2, c) := restoreFromSnapshot d (snapshots_key s) later None (h, s1) in
  c = Resolved
  /\ exists row,
       drafts s2 !! d = Some row
       /\ draft h2 = Some row
       /\ DraftRecord.projectName row = DraftRecord.projectName written
       /\ DraftRecord.promptName row = DraftRecord.promptName written
       /\ DraftRecord.docJson row = DraftRecord.docJson written
       /\ DraftRecord.selection row = DraftRecord.selection written
       /\ DraftRecord.version row = DraftRecord.version written + 1
       /\ DraftRecord.updatedAt row = later.
Proof.
  intros Hwf Hlim Hpast written s1.
  set (new := stored (snapshots_key s) (snapshot_of d written now)).
  assert (s1 = committed d limit written now s) as Hs1.
  { unfold s1. by destruct (flush_try_run d limit update now s) as [n' ->]. }
  assert (find_snapshot (snapshots_key s) s1 = Some new) as Hfind.
  { assert (new ∈ snapshots s1) as Hin.
    { rewrite Hs1. pose proof (new_snapshot_kept d limit written now s Hwf Hlim Hpast) as Hk.
      by apply list_elem_of_filter in Hk as [_ ?]. }
    apply (find_snapshot_member s1 new) in Hin; [done|].
    rewrite Hs1. by apply committed_wf. }
  assert (drafts s1 !! d = Some written) as Hrow.
  { rewrite Hs1, committed_drafts. cbn [written flush_next DraftRecord.id].
    by rewrite lookup_insert_eq. }
  unfold restoreFromSnapshot.
  rewrite (restore_calls_found d (snapshots_key s) later s1 0%nat new Hfind).
  split; [done|]. rewrite Hrow.
  exists (restore_next d new (Some written) later). cbn.
  rewrite lookup_insert_eq. repeat split.
  by rewrite !coalesce_null_idem.
Qed.

Lemma restore_after_flush_is_identity_witness :
  store_wf store_two_drafts
  /\ 1 <= 2
  /\ Forall (fun r => SnapshotRecord.createdAt r <= 5000) (ring "current" store_two_drafts)
  /\ snd (restoreFromSnapshot "current" 5 6000 None
            (initial_hook,
             outcome_store
               (flush_try "current" 2 (edit_doc "fourth" 4) 5000 None
                  store_two_drafts 0%nat)))
     = Resolved.
Proof.
  assert (store_wf store_two_drafts) as Hwf by reflexivity.
  assert (1 <= 2) as Hlim by lia.
  assert (Forall (fun r => SnapshotRecord.createdAt r <= 5000)
            (ring "current" store_two_drafts)) as Hpast.
  { repeat constructor; cbn; lia. }
  split; [exact Hwf|]. split; [exact Hlim|]. split; [exact Hpast|].
  pose proof (restore_after_flush_is_identity "current" 2 (edit_doc "fourth" 4) 5000 6000
                initial_hook store_two_drafts Hwf Hlim Hpast) as H.
  cbv zeta in H. cbn [snapshots_key store_two_drafts] in H.
  destruct (restoreFromSnapshot "current" 5 6000 None _) as [[h2 s2] c].
  exact (proj1 H).
Defined.

(** ** Timers of the page *)

Lemma keys_length_empty u :
  DraftUpdate.keys_length u <= 0 -> u = DraftUpdate.empty.
Proof.
  destruct u as [[?|] [?|] [?|] [?|]]; unfold DraftUpdate.keys_length; cbn; intros H;
    first [reflexivity | lia].
Qed.

Lemma run_flush_hook d limit fault w :
  timerRef (hook (run_flush d limit fault w)) = timerRef (hook w).
Proof.
  unfold run_flush, flush. cbn [DraftUpdate.truthy negb].
  by destruct (flush_try d limit (bufferRef (hook w)) (clock w) fault (store w) 0%nat).
Qed.

Lemma clear_if_set_inv w : timer_inv w -> clear_if_set (timerRef (hook w)) (timers w) = [].
Proof.
  intros [_ [[-> _]|(id & due & -> & -> & Hid)]].
  - apply clear_if_set_idle.
  - apply clear_if_set_pending. lia.
Qed.

(** A flush on a page whose timeouts have all been cleared leaves it
    idle. *)
Lemma run_flush_idle d limit fault w :
  0 < timer_seq w -> timers w = [] -> timer_inv (run_flush d limit fault w).
Proof.
  intros Hseq Hidle.
  destruct (run_flush_effect d limit fault w) as (_ & _ & Hb & Ht & _ & Hs).
  split; [by rewrite Hs|]. left. by rewrite Ht, Hb.
Qed.

Lemma onChange_inv delayMs u w : timer_inv w -> timer_inv (onChange delayMs u w).
Proof.
  intros Hinv. pose proof (clear_if_set_inv w Hinv) as Hclear.
  destruct Hinv as [Hseq _]. unfold onChange. split; cbn; [lia|].
  right. exists (timer_seq w), (clock w + Z.max 0 delayMs).
  rewrite Hclear. repeat split; [done|lia].
Qed.

Lemma elapse_idle d limit dt fault w :
  timers w = [] ->
  timers (elapse d limit dt fault w) = []
  /\ hook (elapse d limit dt fault w) = hook w
  /\ store (elapse d limit dt fault w) = store w
  /\ flushes (elapse d limit dt fault w) = flushes w
  /\ timer_seq (elapse d limit dt fault w) = timer_seq w.
Proof. intros Hidle. unfold elapse. rewrite Hidle. cbn. by rewrite Hidle. Qed.

Lemma elapse_inv d limit dt fault w : timer_inv w -> timer_inv (elapse d limit dt fault w).
Proof.
  intros [Hseq [[Hidle Hbuf]|(id & due & Htimers & Href & Hid)]].
  - destruct (elapse_idle d limit dt fault w Hidle) as (Ht & Hh & _ & _ & Hs).
    split; [by rewrite Hs|]. left. by rewrite Ht, Hh.
  - unfold elapse. rewrite Htimers.
    destruct (decide (due <= clock w + dt)) as [Hdue|Hnot].
    + rewrite filter_cons_True, filter_nil by done. cbn [fold_left].
      unfold fire. rewrite Htimers.
      rewrite bool_decide_eq_true_2 by apply list_elem_of_here.
      unfold clearTimeout. cbn [fst snd].
      rewrite filter_cons_False, filter_nil by (intros H; by apply H).
      match goal with |- context [run_flush d limit fault ?w1] =>
        destruct (run_flush_idle d limit fault w1 Hseq eq_refl) as [Hs Hcase] end.
      split; cbn [timer_seq timers hook]; [exact Hs | exact Hcase].
    + rewrite filter_cons_False, filter_nil by done. cbn [fold_left].
      split; [done|]. right. exists id, due. cbn. by rewrite Htimers.
Qed.

Lemma forced_flush_inv d limit fault w :
  timer_inv w -> timer_inv (forced_flush d limit fault w).
Proof.
  intros Hinv. unfold forced_flush. apply run_flush_idle; cbn.
  - by destruct Hinv.
  - by apply clear_if_set_inv.
Qed.

Lemma unmount_inv d limit fault w : timer_inv w -> timer_inv (unmount d limit fault w).
Proof.
  intros Hinv. unfold unmount. cbn [DraftUpdate.truthy andb].
  destruct (DraftUpdate.keys_length (bufferRef (hook w)) >? 0) eqn:Hkeys.
  - apply run_flush_idle; cbn; [by destruct Hinv | by apply clear_if_set_inv].
  - split; cbn; [by destruct Hinv|]. left. split; [by apply clear_if_set_inv|].
    apply keys_length_empty. rewrite Z.gtb_ltb in Hkeys. by apply Z.ltb_ge in Hkeys.
Qed.

Lemma run_restore_inv d key fault w : timer_inv w -> timer_inv (run_restore d key fault w).
Proof.
  intros Hinv. unfold run_restore, restoreFromSnapshot.
  destruct (restore_calls d key (clock w) fault (store w) 0%nat) as [[next|] s' n'|e s' n'];
    exact Hinv.
Qed.

Lemma step_inv d delayMs limit w e : timer_inv w -> timer_inv (step d delayMs limit w e).
Proof.
  intros Hinv. destruct e; cbn [step].
  - by apply onChange_inv.
  - by apply elapse_inv.
  - by apply forced_flush_inv.
  - by apply forced_flush_inv.
  - by apply unmount_inv.
  - by apply run_restore_inv.
Qed.

Lemma run_inv d delayMs limit events w :
  timer_inv w -> timer_inv (run d delayMs limit events w).
Proof.
  revert w. induction events as [|e events IH]; intros w Hinv; [done|].
  cbn [run fold_left]. apply IH. by apply step_inv.
Qed.

Lemma initial_world_inv s now : timer_inv (initial_world s now).
Proof. split; cbn; [lia|]. by left. Qed.

(** X12.  Whatever the page goes through (edits, time passing, hide and
    pagehide signals, unmount, restores, storage failures), the hook never
    has more than one timeout pending, [timerRef] names the one that is,
    and when none is pending the buffer is empty: no edit sits in the
    buffer without a flush scheduled for it. *)
Theorem one_timer_for_the_buffer (d : string) (delayMs limit : Z) (events : list Event)
    (s : Store) (now : Z) :
  let w := run d delayMs limit events (initial_world s now) in
  match timers w with
  | [] => bufferRef (hook w) = DraftUpdate.empty
  | [(id, _)] => timerRef (hook w) = Some id
  | _ => False
  end.
Proof.
  intros w.
  destruct (run_inv d delayMs limit events _ (initial_world_inv s now))
    as [_ [[Hidle Hbuf]|(id & due & Htimers & Href & _)]]; fold w in Hidle, Hbuf || fold w in Htimers, Href.
  - by rewrite Hidle.
  - by rewrite Htimers.
Qed.

(** ** The draft the hook exposes *)












(** A rejected load on a store that holds a row: the hook exposes no
    draft, although the row is there. *)
Example rejected_load_exposes_no_draft :
  let w := loaded_world "current" false (Some 0%nat) store_two_drafts 0 in
  draft (hook w) = None
  /\ error (hook w) = Some (Rejected 0)
  /\ current_version "current" (store w) = 3.
Proof. vm_compute. done. Qed.

(** ** The signals that force a flush *)

(** X14.  The page is hidden, or goes away, while a burst of edits is waiting
    for its timeout: the buffer is flushed at once, with the merge of the
    burst, and the timeout is cancelled, so that no second flush follows
    however long the page stays. *)
Theorem forced_flush_replaces_timer (d : string) (delayMs limit : Z) (w : World)
    (u0 : DraftUpdate.t) (rest : list (Z * DraftUpdate.t)) (g : Z)
    (fault : option nat) (signal : Event) :
  timers w = [] ->
  bufferRef (hook w) = DraftUpdate.empty ->
  0 < timer_seq w ->
  Forall (fun gu => 0 <= fst gu < delayMs) rest ->
  0 <= g < Z.max 0 delayMs ->
  signal = VisibilityHidden fault \/ signal = PageHide fault ->
  let at_signal := clock w + burst_time rest + g in
  let w2 := run d delayMs limit (burst u0 rest ++ [Elapse g None; signal]) w in
  flushes w2 = flushes w ++ [(at_signal, merged u0 rest)]
  /\ store w2
     = outcome_store (flush_try d limit (merged u0 rest) at_signal fault (store w) 0%nat)
  /\ bufferRef (hook w2) = DraftUpdate.empty
  /\ timers w2 = []
  /\ forall dt fault',
       flushes (run d delayMs limit
                  (burst u0 rest ++ [Elapse g None; signal; Elapse dt fault']) w)
       = flushes w2.
Proof.
  intros Hidle Hbuf Hseq Hgaps Hg Hsignal at_signal w2.
  pose proof (burst_armed d delayMs limit w u0 rest Hidle Hbuf Hseq Hgaps) as Harmed.
  set (w1 := run d delayMs limit (burst u0 rest) w) in *.
  destruct (elapse_short d delayMs limit g None w w1 _ _ Harmed Hg)
    as (Ht & Hh & Hs & Hc & Hst & Hl).
  destruct Harmed as (id & Htimers & Href & Hid & _ & Hclock & Hb & Hstore & Hlog).
  assert (step d delayMs limit (elapse d limit g None w1) signal
          = forced_flush d limit fault (elapse d limit g None w1)) as Hstep.
  { by destruct Hsignal as [-> | ->]. }
  assert (w2 = forced_flush d limit fault (elapse d limit g None w1)) as Hw2.
  { unfold w2. rewrite run_app. fold w1. cbn [run fold_left step].
    exact Hstep. }
  assert (flushes w2 = flushes w ++ [(at_signal, merged u0 rest)]
          /\ store w2
             = outcome_store
                 (flush_try d limit (merged u0 rest) at_signal fault (store w) 0%nat)
          /\ bufferRef (hook w2) = DraftUpdate.empty
          /\ timers w2 = []) as (H1 & H2 & H3 & H4).
  { rewrite Hw2. unfold forced_flush.
    match goal with |- context [run_flush d limit fault ?w'] =>
      destruct (run_flush_effect d limit fault w') as (Es & El & Eb & Et & _) end.
    cbn [hook store clock timers flushes] in *.
    rewrite Es, El, Eb, Et, Ht, Hh, Hc, Hst, Hl, Htimers, Href, Hb, Hstore, Hlog, Hclock.
    by rewrite clear_if_set_pending. }
  split; [done|]. split; [done|]. split; [done|]. split; [done|].
  intros dt fault'.
  replace (burst u0 rest ++ [Elapse g None; signal; Elapse dt fault'])
    with ((burst u0 rest ++ [Elapse g None; signal]) ++ [Elapse dt fault'])
    by (by rewrite <- app_assoc).
  rewrite run_app. fold w2. cbn [run fold_left step].
  by destruct (elapse_idle d limit dt fault' w2 H4) as (_ & _ & _ & -> & _).
Qed.

Lemma forced_flush_replaces_timer_witness :
  timers (initial_world empty_store 0) = []
  /\ bufferRef (hook (initial_world empty_store 0)) = DraftUpdate.empty
  /\ 0 < timer_seq (initial_world empty_store 0)
  /\ Forall (fun gu => 0 <= fst gu < 1000) sample_burst
  /\ 0 <= 500 < Z.max 0 1000
  /\ flushes (run "current" 1000 20
                (burst (edit_doc "hello" 5) sample_burst
                 ++ [Elapse 500 None; VisibilityHidden None])
                (initial_world empty_store 0))
     = [(1799, merged (edit_doc "hello" 5) sample_burst)].
Proof.
  assert (Forall (fun gu : Z * DraftUpdate.t => 0 <= fst gu < 1000) sample_burst) as Hgaps.
  { unfold sample_burst. repeat constructor; cbn; lia. }
  assert (0 < timer_seq (initial_world empty_store 0)) as Hseq by (cbn; lia).
  assert (0 <= 500 < Z.max 0 1000) as Hg by lia.
  split; [reflexivity|]. split; [reflexivity|]. split; [exact Hseq|].
  split; [exact Hgaps|]. split; [exact Hg|].
  exact (proj1 (forced_flush_replaces_timer "current" 1000 20 (initial_world empty_store 0)
                  (edit_doc "hello" 5) sample_burst 500 None (VisibilityHidden None)
                  eq_refl eq_refl Hseq Hgaps Hg (or_introl eq_refl))).
Defined.

(** ** Unmount *)

(** X15.  When the hook unmounts, whatever the page went through before, the
    pending timeout is cancelled and nothing stays buffered.  If the
    buffer holds at least one attribute it is flushed, once, as it is; if
    it holds none, nothing is written: unlike the forced flush, the
    unmount does not write for an empty buffer. *)
Theorem unmount_flushes_only_edits (d : string) (delayMs limit : Z) (events : list Event)
    (s : Store) (now : Z) (fault : option nat) :
  let w := run d delayMs limit events (initial_world s now) in
  let w' := unmount d limit fault w in
  timers w' = []
  /\ bufferRef (hook w') = DraftUpdate.empty
  /\ if DraftUpdate.keys_length (bufferRef (hook w)) >? 0
     then flushes w' = flushes w ++ [(clock w, bufferRef (hook w))]
          /\ store w'
             = outcome_store
                 (flush_try d limit (bufferRef (hook w)) (clock w) fault (store w) 0%nat)
     else flushes w' = flushes w /\ store w' = store w.
Proof.
  intros w w'.
  pose proof (run_inv d delayMs limit events _ (initial_world_inv s now)) as Hinv.
  fold w in Hinv. pose proof (clear_if_set_inv w Hinv) as Hclear.
  unfold w', unmount. cbn [DraftUpdate.truthy andb].
  destruct (DraftUpdate.keys_length (bufferRef (hook w)) >? 0) eqn:Hkeys.
  - match goal with |- context [run_flush d limit fault ?w1] =>
      destruct (run_flush_effect d limit fault w1) as (Es & El & Eb & Et & _) end.
    cbn [hook store clock timers flushes] in *.
    by rewrite Es, El, Eb, Et, Hclear.
  - cbn [hook store clock timers flushes]. rewrite Hclear.
    rewrite Z.gtb_ltb in Hkeys. apply Z.ltb_ge in Hkeys.
    by rewrite (keys_length_empty _ Hkeys).
Qed.

(** ** From the inputs to the store and back *)



(** ** A restore while edits are pending *)

Lemma run_restore_page d key fault w :
  timers (run_restore d key fault w) = timers w
  /\ timerRef (hook (run_restore d key fault w)) = timerRef (hook w)
  /\ bufferRef (hook (run_restore d key fault w)) = bufferRef (hook w)
  /\ timer_seq (run_restore d key fault w) = timer_seq w
  /\ clock (run_restore d key fault w) = clock w
  /\ flushes (run_restore d key fault w) = flushes w.
Proof.
  unfold run_restore, restoreFromSnapshot.
  by destruct (restore_calls d key (clock w) fault (store w) 0%nat)
    as [[next|] s' n'|e s' n'].
Qed.

Lemma run_restore_found d key w snap :
  find_snapshot key (store w) = Some snap ->
  drafts (store (run_restore d key None w)) !! d
  = Some (restore_next d snap (drafts (store w) !! d) (clock w)).
Proof.
  intros Hfind. unfold run_restore, restoreFromSnapshot.
  rewrite (restore_calls_found d key (clock w) (store w) 0%nat snap Hfind).
  cbn. by rewrite lookup_insert_eq.
Qed.

(** X17.  A restore does not discard the edits that wait in the buffer.  When a
    snapshot is restored in the middle of a burst whose merge holds a
    document, the flush that follows the quiet period writes that document
    over the restored one: the Draft row ends two versions up, with the
    document of the buffer, not of the snapshot. *)
Theorem pending_edits_override_restore (d : string) (delayMs limit : Z) (w : World)
    (u0 : DraftUpdate.t) (rest : list (Z * DraftUpdate.t)) (key dt : Z)
    (snap : SnapshotRecord.t) (doc : json) :
  timers w = [] ->
  bufferRef (hook w) = DraftUpdate.empty ->
  0 < timer_seq w ->
  Forall (fun gu => 0 <= fst gu < delayMs) rest ->
  Z.max 0 delayMs <= dt ->
  find_snapshot key (store w) = Some snap ->
  DraftUpdate.docJson (merged u0 rest) = Some (val doc) ->
  let w2 := run d delayMs limit (burst u0 rest ++ [Restore key None; Elapse dt None]) w in
  exists row,
    drafts (store w2) !! d = Some row
    /\ DraftRecord.docJson row = val doc
    /\ DraftRecord.version row = current_version d (store w) + 2
    /\ flushes w2 = flushes w ++ [(clock w + burst_time rest + Z.max 0 delayMs,
                                   merged u0 rest)].
Proof.
  intros Hidle Hbuf Hseq Hgaps Hdt Hfind Hdoc w2.
  pose proof (burst_armed d delayMs limit w u0 rest Hidle Hbuf Hseq Hgaps) as Harmed.
  set (w1 := run d delayMs limit (burst u0 rest) w) in *.
  destruct Harmed as (id & Htimers & Href & Hid & Hs & Hclock & Hb & Hstore & Hlog).
  set (wr := run_restore d key None w1).
  destruct (run_restore_page d key None w1) as (Rt & Rr & Rb & Rs & Rc & Rl). fold wr in Rt, Rr, Rb, Rs, Rc, Rl.
  assert (armed delayMs wr wr (merged u0 rest) (clock w + burst_time rest)) as Harmed.
  { exists id. rewrite Rt, Rr, Rb, Rs, Rc. by repeat split. }
  assert (w2 = elapse d limit dt None wr) as ->.
  { unfold w2. rewrite run_app. by fold w1. }
  destruct (elapse_fires d delayMs limit dt None wr wr _ _ Harmed Hdt)
    as (Hl & Hst & _ & _).
  rewrite <- Hstore in Hfind.
  pose proof (run_restore_found d key w1 snap Hfind) as Hrestored. fold wr in Hrestored.
  destruct (flush_try_run d limit (merged u0 rest)
              (clock w + burst_time rest + Z.max 0 delayMs) (store wr)) as [n' Hok].
  rewrite Hok in Hst. cbn [outcome_store] in Hst.
  eexists. split.
  { rewrite Hst, committed_drafts. cbn [flush_next DraftRecord.id].
    by rewrite lookup_insert_eq. }
  split; [|split].
  - cbn [DraftRecord.docJson flush_next]. by rewrite Hdoc.
  - cbn [DraftRecord.version flush_next]. rewrite Hrestored.
    cbn [chain num_or restore_next DraftRecord.version]. rewrite Hstore.
    unfold current_version. lia.
  - by rewrite Hl, Rl, Hlog.
Qed.

Lemma pending_edits_override_restore_witness :
  timers (initial_world store_two_drafts 4000) = []
  /\ bufferRef (hook (initial_world store_two_drafts 4000)) = DraftUpdate.empty
  /\ 0 < timer_seq (initial_world store_two_drafts 4000)
  /\ Forall (fun gu => 0 <= fst gu < 1000) sample_burst
  /\ Z.max 0 1000 <= 1000
  /\ find_snapshot 2 (store (initial_world store_two_drafts 4000)) = Some snapshot_1500
  /\ DraftUpdate.docJson (merged (edit_doc "hello" 5) sample_burst)
     = Some (val (JStr "hello world"))
  /\ exists row,
       drafts (store (run "current" 1000 20
                        (burst (edit_doc "hello" 5) sample_burst
                         ++ [Restore 2 None; Elapse 1000 None])
                        (initial_world store_two_drafts 4000))) !! "current" = Some row
       /\ DraftRecord.docJson row = val (JStr "hello world").
Proof.
  assert (Forall (fun gu : Z * DraftUpdate.t => 0 <= fst gu < 1000) sample_burst) as Hgaps.
  { unfold sample_burst. repeat constructor; cbn; lia. }
  assert (0 < timer_seq (initial_world store_two_drafts 4000)) as Hseq by (cbn; lia).
  assert (Z.max 0 1000 <= 1000) as Hdt by lia.
  split; [reflexivity|]. split; [reflexivity|]. split; [exact Hseq|].
  split; [exact Hgaps|]. split; [exact Hdt|]. split; [reflexivity|].
  split; [reflexivity|].
  destruct (pending_edits_override_restore "current" 1000 20
              (initial_world store_two_drafts 4000) (edit_doc "hello" 5) sample_burst
              2 1000 snapshot_1500 (JStr "hello world")
              eq_refl eq_refl Hseq Hgaps Hdt eq_refl eq_refl)
    as (row & Hrow & Hdoc & _).
  exists row. by split.
Defined.

(** ** Snapshots are written once *)

(** One operation keeps the rows of the table in order, unchanged, drops
    some, and adds rows only under keys the generator had not handed out
    before. *)
Lemma apply_op_snapshots d limit op s :
  exists extra,
    snapshots (fst (apply_op d limit op s)) `sublist_of` snapshots s ++ extra
    /\ Forall (fun r => snapshots_key s <= SnapshotRecord.id r) extra
    /\ snapshots_key s <= snapshots_key (fst (apply_op d limit op s)).
Proof.
  destruct op as [update now fault|key now fault]; cbn [apply_op].
  - destruct (flush_try_cases d limit update now fault s) as [[n' ->]|(e & n' & ->)];
      cbn [fst].
    + exists [stored (snapshots_key s)
                (snapshot_of d (flush_next d update (drafts s !! d) now) now)].
      split; [unfold committed; apply evict_sublist|]. split.
      * repeat constructor. cbn. lia.
      * rewrite committed_key. lia.
    + exists []. rewrite app_nil_r. split; [done|]. split; [constructor|lia].
  - exists []. rewrite app_nil_r.
    destruct (restore_calls_cases d key now fault s)
      as [(e & n' & ->)|[(_ & n' & ->)|(snap & n' & _ & ->)]]; cbn [fst];
      (split; [done|]); (split; [constructor|cbn; lia]).
Qed.

Lemma run_ops_snapshots d limit ops : forall s,
  exists extra,
    snapshots (run_ops d limit ops s) `sublist_of` snapshots s ++ extra
    /\ Forall (fun r => snapshots_key s <= SnapshotRecord.id r) extra.
Proof.
  induction ops as [|op ops IH]; intros s; cbn [run_ops].
  - exists []. rewrite app_nil_r. split; [done|constructor].
  - destruct (apply_op_snapshots d limit op s) as (e1 & Hsub1 & Hkeys1 & Hmono).
    destruct (IH (fst (apply_op d limit op s))) as (e2 & Hsub2 & Hkeys2).
    exists (e1 ++ e2). split.
    + etrans; [exact Hsub2|]. rewrite app_assoc. by apply sublist_app.
    + apply Forall_app. split; [done|].
      eapply Forall_impl; [exact Hkeys2|]. cbn. intros; lia.
Qed.

Lemma filter_sublist {A} (P : A -> Prop) {Pdec : forall x, Decision (P x)} (l k : list A) :
  l `sublist_of` k -> filter P l `sublist_of` filter P k.
Proof.
  induction 1 as [|x l k _ IH|x l k _ IH]; [done| |].
  - rewrite !filter_cons. destruct (decide (P x)); [by constructor | done].
  - rewrite filter_cons. destruct (decide (P x)); [by constructor | done].
Qed.

(** X18.  A snapshot, once written, is never modified: after any sequence of
    flushes and restores, the rows stored under the keys that existed
    before are rows that were there before, unchanged and in the same
    order; all that can happen to a snapshot is its eviction. *)
Theorem snapshots_are_only_evicted (d : string) (limit : Z) (ops : list Op) (s : Store) :
  filter (fun r => SnapshotRecord.id r < snapshots_key s)
         (snapshots (run_ops d limit ops s))
  `sublist_of` snapshots s.
Proof.
  destruct (run_ops_snapshots d limit ops s) as (extra & Hsub & Hkeys).
  etrans; [apply filter_sublist, Hsub|].
  rewrite filter_app. rewrite (filter_none _ extra).
  - rewrite app_nil_r. apply sublist_filter.
  - eapply Forall_impl; [exact Hkeys|]. cbn. intros; lia.
Qed.
